(** * Scope-based authorization of JupyterHub: [jupyterhub/scopes.py]

    A shallow embedding of the scope parser ([parse_scopes]), the
    effective-scope resolver ([get_scopes_for]), the scope check
    ([_check_scope] with its two helpers) and the decorator
    [needs_scope] (its inner function [_auth_func]), followed by the
    properties of the specification that concern them.

    Conventions of the embedding:
    - Python [dict]s that are only looked up by key are [gmap]s; the
      keyword dictionary [kwargs], which the check iterates in insertion
      order, is an association list;
    - Python [set]s of scope strings are [gset string];
    - a call that may raise returns a [result]: [Ok v] or [Raise e];
    - the calls to [app_log] do not influence control flow and are left out,
      the set of discarded token scopes that is logged is kept as a
      component of its own, and so is the evaluation of the end point of
      the warning of the decorator, which can raise. *)

From stdpp Require Import base option list strings gmap fin_maps fin_sets sets.
From Stdlib Require Import Ascii String.

Local Open Scope string_scope.
Local Open Scope list_scope.

(** ** Outcomes *)

(** The exceptions the module can raise: [web.HTTPError(status, message)]
    and the two built-in errors of attribute and key access. *)
Inductive exn : Type :=
| HTTPError (status : nat) (log_message : string)
| AttributeError (attr : string)
| KeyError (key : string).

Inductive result (A : Type) : Type :=
| Ok (v : A)
| Raise (e : exn).

Arguments Ok {A} v.
Arguments Raise {A} e.

#[global] Instance exn_eq_dec : EqDecision exn.
Proof. solve_decision. Defined.

#[global] Instance result_eq_dec `{EqDecision A} : EqDecision (result A).
Proof. solve_decision. Defined.

(** The message shared by both 404 sites of the module. *)
Definition not_found_message : string :=
  "No access to resources or resources not found".

Definition not_found : exn := HTTPError 404 not_found_message.

(** ** Strings *)

(** [str.partition] for a one-character separator: the part before the first
    occurrence, the separator, the part after it; the whole string and two
    empty strings when the separator does not occur. *)
Fixpoint partition (sep : ascii) (s : string) : string * string * string :=
  match s with
  | EmptyString => (EmptyString, EmptyString, EmptyString)
  | String c rest =>
      if bool_decide (c = sep) then (EmptyString, String sep EmptyString, rest)
      else
        let '(before, found, after) := partition sep rest in
        (String c before, found, after)
  end.

(** Truth value of a Python string: the empty string is false. *)
Definition truthy (s : string) : bool :=
  match s with
  | EmptyString => false
  | String _ _ => true
  end.

(** [sep.join(parts)] *)
Fixpoint join (sep : string) (parts : list string) : string :=
  match parts with
  | [] => EmptyString
  | [p] => p
  | p :: rest => p +:+ sep +:+ join sep rest
  end.

(** [c] occurs in [s]. *)
Fixpoint occurs (c : ascii) (s : string) : bool :=
  match s with
  | EmptyString => false
  | String d rest => bool_decide (d = c) || occurs c rest
  end.

(** The scope name and the filter text of a scope string, as
    [scope.partition('!')] yields them. *)
Definition base_of (scope : string) : string := (partition "!" scope).1.1.
Definition filter_of (scope : string) : string := (partition "!" scope).2.

(** ** Data model *)

(** The value of one scope name in the parsed model: the enum member
    [Scope.ALL], or a dictionary from filter key to the list of allowed
    values. *)
Inductive ScopeGrant : Type :=
| ALL
| Filtered (sub_scope : gmap string (list string)).

#[global] Instance ScopeGrant_eq_dec : EqDecision ScopeGrant.
Proof. solve_decision. Defined.

(** ** [parse_scopes] *)

(** The body of the loop of [parse_scopes] for one scope string. After the
    first conditional the key [base_scope] is always present, so the lookup
    of the second conditional cannot fail; the [None] branch below is the
    unreachable [KeyError]. *)
Definition parse_scope (parsed_scopes : gmap string ScopeGrant) (scope : string)
  : gmap string ScopeGrant :=
  let '(base_scope, _, filter_) := partition "!" scope in
  let parsed_scopes :=
    if negb (truthy filter_) then <[base_scope := ALL]> parsed_scopes
    else
      match parsed_scopes !! base_scope with
      | None => <[base_scope := Filtered ∅]> parsed_scopes
      | Some _ => parsed_scopes
      end in
  match parsed_scopes !! base_scope with
  | Some (Filtered sub_scope) =>
      let '(key, _, val) := partition "=" filter_ in
      let sub_scope :=
        match sub_scope !! key with
        | None => <[key := []]> sub_scope
        | Some _ => sub_scope
        end in
      let sub_scope := alter (λ vals, vals ++ [val]) key sub_scope in
      <[base_scope := Filtered sub_scope]> parsed_scopes
  | Some ALL => parsed_scopes
  | None => parsed_scopes
  end.

Definition parse_scopes (scope_list : list string) : gmap string ScopeGrant :=
  foldl parse_scope ∅ scope_list.

(** ** The persisted records ([orm]) and the roles accessor *)

Module orm.

Record Group : Type := { name : string }.

Record User : Type := { uname : string; groups : list Group }.

Record Service : Type := { sname : string }.

(** An API token belongs to a user or to a service; either reference may
    be missing. *)
Record APIToken : Type :=
  { token : string; user : option User; service : option Service }.

Inductive object : Type :=
| OUser (u : User)
| OService (s : Service)
| OAPIToken (t : APIToken).

End orm.

(** ** [get_scopes_for] *)

Section resolver.

(** [roles.get_scopes_for], which lives in another module of the package:
    the scopes a record holds through its roles. Its argument is optional
    because the owner of a token may be [None]. *)
Variable roles_get_scopes_for : option orm.object → gset string.

(** [orm_object.user or orm_object.service] *)
Definition owner (t : orm.APIToken) : option orm.object :=
  match orm.user t with
  | Some u => Some (orm.OUser u)
  | None => orm.OService <$> orm.service t
  end.

(** The token branch: the resolved scopes together with the discarded
    token scopes, which the source reports in a warning when the set is
    not empty. *)
Definition token_branch (t : orm.APIToken) : gset string * gset string :=
  let token_scopes := roles_get_scopes_for (Some (orm.OAPIToken t)) in
  let owner_scopes := roles_get_scopes_for (owner t) in
  let token_scopes :=
    if bool_decide ("all" ∈ token_scopes) then token_scopes ∪ owner_scopes
    else token_scopes in
  let scopes := token_scopes ∩ owner_scopes in
  let discarded_token_scopes := token_scopes ∖ scopes in
  (scopes, discarded_token_scopes).

Definition get_scopes_for (orm_object : option orm.object) : gset string :=
  match orm_object with
  | None => ∅
  | Some (orm.OAPIToken t) => fst (token_branch t)
  | Some o => roles_get_scopes_for (Some o)
  end.

End resolver.

(** ** The request handler *)

(** The request of a handler, of which the module reads the path. *)
Record HTTPServerRequest : Type := { path : string }.

(** What the module reads and writes on a handler: the two attributes
    [raw_scopes] and [parsed_scopes], which may not have been set yet
    ([hasattr]), the method [find_user], and the two attributes the
    rejection path of the decorator reads, [request] and [__name__], either
    of which the handler may lack. *)
Record Handler : Type :=
  { raw_scopes : option (gset string);
    parsed_scopes : option (gmap string ScopeGrant);
    find_user : string → option orm.User;
    request : option HTTPServerRequest;
    __name__ : option string }.

(** ** Keyword dictionaries *)

(** [key in d] and [d[key]] *)
Fixpoint dict_get (key : string) (d : list (string * string)) : option string :=
  match d with
  | [] => None
  | (k, v) :: rest => if bool_decide (k = key) then Some v else dict_get key rest
  end.

(** [d[key] = value]: an existing key keeps its position, a new key goes
    last. *)
Fixpoint dict_set (key value : string) (d : list (string * string))
  : list (string * string) :=
  match d with
  | [] => [(key, value)]
  | (k, v) :: rest =>
      if bool_decide (k = key) then (k, value) :: rest
      else (k, v) :: dict_set key value rest
  end.

(** ** The scope check *)

Definition _needs_scope_expansion (filter_ filter_value : string)
    (sub_scope : gmap string (list string)) : bool :=
  if negb (bool_decide (filter_ = "user") && bool_decide ("group" ∈ dom sub_scope))
  then false
  else
    match sub_scope !! "user" with
    | Some users => negb (bool_decide (filter_value ∈ users))
    | None => true
    end.

Definition _check_user_in_expanded_scope (handler : Handler) (user_name : string)
    (scope_group_names : list string) : result bool :=
  match find_user handler user_name with
  | None => Raise not_found
  | Some user =>
      let group_names : gset string := list_to_set (orm.name <$> orm.groups user) in
      Ok (negb (bool_decide (list_to_set scope_group_names ∩ group_names = ∅)))
  end.

(** The rewriting of the [server] entry at the start of [_check_scope]:
    ["{}/{}".format(kwargs['user'], kwargs['server'])]. *)
Definition composite (kwargs : list (string * string)) : list (string * string) :=
  match dict_get "user" kwargs, dict_get "server" kwargs with
  | Some user, Some server => dict_set "server" (user +:+ "/" +:+ server) kwargs
  | _, _ => kwargs
  end.

(** [filter_ in sub_scope and filter_value in sub_scope[filter_]] *)
Definition direct_match (sub_scope : gmap string (list string))
    (filter_ filter_value : string) : bool :=
  match sub_scope !! filter_ with
  | Some allowed => bool_decide (filter_value ∈ allowed)
  | None => false
  end.

(** The loop over [kwargs.items()] and the [raise] that follows it. *)
Fixpoint apply_filters (api_handler : Handler)
    (sub_scope : gmap string (list string)) (items : list (string * string))
  : result bool :=
  match items with
  | [] => Raise not_found
  | (filter_, filter_value) :: rest =>
      if direct_match sub_scope filter_ filter_value then Ok true
      else if _needs_scope_expansion filter_ filter_value sub_scope then
        match sub_scope !! "group" with
        | None => Raise (KeyError "group")
        | Some group_names =>
            match _check_user_in_expanded_scope api_handler filter_value group_names with
            | Raise e => Raise e
            | Ok true => Ok true
            | Ok false => apply_filters api_handler sub_scope rest
            end
        end
      else apply_filters api_handler sub_scope rest
  end.

(** The name [api_name] that the check computes first is used in log
    messages only, and its fallback [type(api_handler).__name__] cannot
    fail; it is left out. *)
Definition _check_scope (api_handler : Handler) (req_scope : string)
    (kwargs : list (string * string)) : result bool :=
  let kwargs := composite kwargs in
  match parsed_scopes api_handler with
  | None => Raise (AttributeError "parsed_scopes")
  | Some parsed =>
      match parsed !! req_scope with
      | None => Ok false
      | Some ALL => Ok true
      | Some (Filtered sub_scope) =>
          match kwargs with
          | [] => Ok true
          | _ :: _ => apply_filters api_handler sub_scope kwargs
          end
      end
  end.

(** An entry of the context permits access under a filtered grant: it
    matches directly, or expansion is needed and finds the user in one of
    the groups. *)
Definition permits (api_handler : Handler)
    (sub_scope : gmap string (list string)) (item : string * string) : Prop :=
  direct_match sub_scope item.1 item.2 = true
  ∨ (_needs_scope_expansion item.1 item.2 sub_scope = true
     ∧ ∃ group_names, sub_scope !! "group" = Some group_names
         ∧ _check_user_in_expanded_scope api_handler item.2 group_names = Ok true).

(** ** The decorator [needs_scope] *)

Section decorator.

Context {R : Type}.

(** The names given to the decorator. *)
Variable scopes : list string.

(** The wrapped method, as a function of the handler and of the bound
    arguments of the call. What it may itself assign on the handler is
    outside this development. *)
Variable func : Handler → gmap string string → result R.

(** The order in which the set literal
    [{'user', 'server', 'group', 'service'}] is iterated; Python does not
    fix it. *)
Variable resources : list string.

(** Load scopes in case they haven't been loaded yet. *)
Definition load_scopes (self : Handler) : Handler :=
  match raw_scopes self with
  | Some _ => self
  | None =>
      {| raw_scopes := Some ∅; parsed_scopes := Some ∅;
         find_user := find_user self;
         request := request self; __name__ := __name__ self |}
  end.

(** The construction of [s_kwargs] from [bound_sig.arguments]. *)
Definition collect (arguments : gmap string string) : list (string * string) :=
  foldl (λ s_kwargs resource,
           let resource_name := resource +:+ "_name" in
           match arguments !! resource_name with
           | Some resource_value => dict_set resource resource_value s_kwargs
           | None => s_kwargs
           end) [] resources.

(** [for scope in scopes: has_access |= _check_scope(self, scope, **s_kwargs)];
    every call receives a fresh copy of [s_kwargs], and an exception of
    one call leaves the loop. *)
Fixpoint any_scope (self : Handler) (s_kwargs : list (string * string))
    (has_access : bool) (todo : list string) : result bool :=
  match todo with
  | [] => Ok has_access
  | scope :: rest =>
      match _check_scope self scope s_kwargs with
      | Raise e => Raise e
      | Ok b => any_scope self s_kwargs (has_access || b) rest
      end
  end.

Definition forbidden : exn :=
  HTTPError 403
    ("Action is not authorized with current scopes; requires any of ["
       +:+ join ", " scopes +:+ "]").

(** The name of the end point for the warning of the rejection path:
    [self.request.path], and [self.__name__] when that access raises an
    attribute error; the second access is not guarded. *)
Definition end_point (self : Handler) : result string :=
  match request self with
  | Some req => Ok (path req)
  | None =>
      match __name__ self with
      | Some name => Ok name
      | None => Raise (AttributeError "__name__")
      end
  end.

Definition _auth_func (self : Handler) (arguments : gmap string string)
  : Handler * result R :=
  let self := load_scopes self in
  let s_kwargs := collect arguments in
  match any_scope self s_kwargs false scopes with
  | Raise e => (self, Raise e)
  | Ok true => (self, func self arguments)
  | Ok false =>
      match end_point self with
      | Raise e => (self, Raise e)
      | Ok _ => (self, Raise forbidden)
      end
  end.

End decorator.

(** The four resource names of the set literal, in one of its orders. *)
Definition resource_names : list string := ["user"; "server"; "group"; "service"].

(** ** Sample data for the examples *)

(** A roles accessor: tokens hold [token_scopes], every other record
    [owner_scopes]. *)
Definition sample_roles (token_scopes owner_scopes : gset string)
    (o : option orm.object) : gset string :=
  match o with
  | Some (orm.OAPIToken _) => token_scopes
  | _ => owner_scopes
  end.

Definition alice : orm.User :=
  {| orm.uname := "alice"; orm.groups := [ {| orm.name := "teamA" |} ] |}.

Definition alice_token : orm.APIToken :=
  {| orm.token := "t0"; orm.user := Some alice; orm.service := None |}.

Definition narrow_token_scopes : gset string := {[ "read:users" ]}.
Definition narrow_owner_scopes : gset string := {[ "users"; "groups" ]}.

(** A user store that knows [alice] only. *)
Definition only_alice (user_name : string) : option orm.User :=
  if bool_decide (user_name = "alice") then Some alice else None.

(** The request of the sample handlers. *)
Definition users_request : HTTPServerRequest := {| path := "/hub/api/users" |}.

(** A handler whose scopes were loaded from a list of scope strings. *)
Definition loaded (scope_list : list string) : Handler :=
  {| raw_scopes := Some (list_to_set scope_list);
     parsed_scopes := Some (parse_scopes scope_list);
     find_user := only_alice;
     request := Some users_request; __name__ := None |}.

(** A handler on which no scopes were loaded. *)
Definition unloaded : Handler :=
  {| raw_scopes := None; parsed_scopes := None; find_user := only_alice;
     request := Some users_request; __name__ := None |}.

(** A wrapped method that always returns. *)
Definition done_ (self : Handler) (arguments : gmap string string) : result unit :=
  Ok ().

(** The bound arguments of two calls. *)
Definition bob_request : gmap string string := {[ "user_name" := "bob" ]}.

Definition bar_request : gmap string string :=
  {[ "user_name" := "u1"; "server_name" := "bar" ]}.

(** ** Notions used in the statements about the parser *)

(** The key and the value of a filter text, as [filter_.partition('=')]
    yields them. *)
Definition key_of (filter_ : string) : string := (partition "=" filter_).1.1.
Definition val_of (filter_ : string) : string := (partition "=" filter_).2.

(** The last three statements of the loop body of [parse_scopes], on the
    dictionary of one scope name: create the list of [key] when it is
    missing, then append [val]. *)
Definition add_value (key val : string) (sub_scope : gmap string (list string))
  : gmap string (list string) :=
  alter (λ vals, vals ++ [val]) key
    match sub_scope !! key with
    | None => <[key := []]> sub_scope
    | Some _ => sub_scope
    end.

(** [value] is among the values a filtered grant lists for [key]. *)
Definition lists (sub_scope : gmap string (list string)) (key value : string)
  : Prop :=
  ∃ vals, sub_scope !! key = Some vals ∧ value ∈ vals.

(** The scope string [name!key=value]. *)
Definition filtered_scope (name key value : string) : string :=
  name +:+ "!" +:+ key +:+ "=" +:+ value.

(** A scope list for the examples: two filtered scope strings of ["users"]
    around an unfiltered one of another name. *)
Definition mixed_scope_list : list string :=
  ["users!user=alice"; "groups"; "users!group=staff"].

(** Token scopes for the examples: the sentinel alone, and a part of
    [narrow_owner_scopes]. *)
Definition all_token_scopes : gset string := {[ "all" ]}.
Definition held_token_scopes : gset string := {[ "users" ]}.

(** A wrapped method that fails on its own account. *)
Definition failing {R : Type} (self : Handler) (arguments : gmap string string)
  : result R :=
  Raise (KeyError "").

(** A handler that has [raw_scopes] but not [parsed_scopes]. *)
Definition half_loaded : Handler :=
  {| raw_scopes := Some ∅; parsed_scopes := None; find_user := only_alice;
     request := Some users_request; __name__ := None |}.

(** A handler that has [parsed_scopes] but not [raw_scopes]. *)
Definition parsed_only : Handler :=
  {| raw_scopes := None; parsed_scopes := Some {[ "users" := ALL ]};
     find_user := only_alice;
     request := Some users_request; __name__ := None |}.

(** A handler without scopes, without a request and without a name. *)
Definition bare_handler : Handler :=
  {| raw_scopes := None; parsed_scopes := None; find_user := only_alice;
     request := None; __name__ := None |}.

(** Two orders of iteration of the resource names. *)
Definition user_first : list string := ["user"; "server"; "group"; "service"].
Definition group_first : list string := ["group"; "user"; "server"; "service"].

(** The bound arguments of a call that names a user and a group. *)
Definition user_group_request (user_name group_name : string)
  : gmap string string :=
  {[ "user_name" := user_name; "group_name" := group_name ]}.

(** * Properties *)

Example parse_docstring :
  parse_scopes ["users"; "admin:users!user=alice";
                "users:servers!server=bar"; "users:servers!server=baz"]
  = {[ "users" := ALL;
       "admin:users" := Filtered {[ "user" := ["alice"] ]};
       "users:servers" := Filtered {[ "server" := ["bar"; "baz"] ]} ]}.
Proof. vm_compute. reflexivity. Qed.

(** ** Splitting of scope strings *)

Lemma partition_absent (sep : ascii) (s : string) :
  occurs sep s = false → partition sep s = (s, EmptyString, EmptyString).
Proof.
  induction s as [|c s IH]; simpl; [done|].
  intros H. apply orb_false_iff in H as [Hc Hs].
  rewrite Hc, (IH Hs). done.
Qed.

Lemma partition_trailing (sep : ascii) (s : string) :
  occurs sep s = false →
  partition sep (s +:+ String sep EmptyString) = (s, String sep EmptyString, EmptyString).
Proof.
  induction s as [|c s IH]; simpl.
  - intros _. by rewrite bool_decide_eq_true_2.
  - intros H. apply orb_false_iff in H as [Hc Hs].
    rewrite Hc, (IH Hs). done.
Qed.

Lemma parse_scope_split (scope : string) :
  ∃ sep, partition "!" scope = (base_of scope, sep, filter_of scope).
Proof.
  unfold base_of, filter_of. destruct (partition "!" scope) as [[b sep] f].
  by exists sep.
Qed.

(** ** The parser *)

(** A scope string with an empty filter text makes its name unrestricted. *)
Lemma parse_scope_unfiltered (m : gmap string ScopeGrant) (scope : string) :
  filter_of scope = EmptyString →
  parse_scope m scope !! base_of scope = Some ALL.
Proof.
  intros Hf. destruct (parse_scope_split scope) as [sep Hp].
  unfold parse_scope. rewrite Hp, Hf. simpl.
  rewrite lookup_insert_eq. apply lookup_insert_eq.
Qed.

(** An unrestricted name is never narrowed by a later scope string. *)
Lemma parse_scope_keeps_ALL (m : gmap string ScopeGrant) (scope name : string) :
  m !! name = Some ALL → parse_scope m scope !! name = Some ALL.
Proof.
  intros Hm. destruct (parse_scope_split scope) as [sep Hp].
  unfold parse_scope. rewrite Hp.
  set (m1 := if negb (truthy (filter_of scope)) then _ else _).
  assert (Hm1 : m1 !! name = Some ALL).
  { subst m1. destruct (truthy (filter_of scope)); simpl.
    - destruct (m !! base_of scope) eqn:Hb; [done|].
      rewrite lookup_insert_ne; [done|]. intros Heq. subst name. congruence.
    - destruct (decide (base_of scope = name)) as [->|Hne].
      + apply lookup_insert_eq.
      + by rewrite lookup_insert_ne. }
  clearbody m1.
  destruct (m1 !! base_of scope) as [[|sub]|] eqn:Hb; try done.
  destruct (partition "=" (filter_of scope)) as [[key ?] val].
  rewrite lookup_insert_ne; [done|]. intros Heq. subst name. congruence.
Qed.

Lemma foldl_parse_scope_keeps_ALL (scope_list : list string)
    (m : gmap string ScopeGrant) (name : string) :
  m !! name = Some ALL → foldl parse_scope m scope_list !! name = Some ALL.
Proof.
  revert m. induction scope_list as [|scope rest IH]; intros m Hm; simpl; [done|].
  apply IH. by apply parse_scope_keeps_ALL.
Qed.

Lemma foldl_parse_scope_unfiltered (scope_list : list string)
    (m : gmap string ScopeGrant) (scope : string) :
  scope ∈ scope_list → filter_of scope = EmptyString →
  foldl parse_scope m scope_list !! base_of scope = Some ALL.
Proof.
  intros Hin Hf. revert m.
  induction Hin as [scope rest|scope other rest Hin IH]; intros m; simpl.
  - apply foldl_parse_scope_keeps_ALL. by apply parse_scope_unfiltered.
  - apply IH, Hf.
Qed.

Lemma bare_name_split (scope_name : string) :
  occurs "!" scope_name = false →
  base_of scope_name = scope_name ∧ filter_of scope_name = EmptyString.
Proof.
  intros H. unfold base_of, filter_of. by rewrite (partition_absent _ _ H).
Qed.

Lemma trailing_bang_split (scope_name : string) :
  occurs "!" scope_name = false →
  base_of (scope_name +:+ "!") = scope_name ∧
  filter_of (scope_name +:+ "!") = EmptyString.
Proof.
  intros H. unfold base_of, filter_of.
  by rewrite (partition_trailing "!" _ H).
Qed.

(** [parse_scope] reads a scope string only through its name and its filter
    text. *)
Lemma parse_scope_ext (m : gmap string ScopeGrant) (s1 s2 : string) :
  base_of s1 = base_of s2 → filter_of s1 = filter_of s2 →
  parse_scope m s1 = parse_scope m s2.
Proof.
  intros Hb Hf.
  destruct (parse_scope_split s1) as [sep1 H1].
  destruct (parse_scope_split s2) as [sep2 H2].
  unfold parse_scope. rewrite H1, H2, Hb, Hf. done.
Qed.

(** C4: a scope name given without a filter in the list maps to [ALL],
    wherever filtered scope strings of that name stand in the list; both
    orders of ["a!x=1"] and ["a"] give the map sending ["a"] to [ALL]. *)
Theorem parse_scopes_unrestricted_wins :
  (∀ (scope_list : list string) (scope_name : string),
      occurs "!" scope_name = false →
      scope_name ∈ scope_list →
      parse_scopes scope_list !! scope_name = Some ALL)
  ∧ parse_scopes ["a!x=1"; "a"] = {[ "a" := ALL ]}
  ∧ parse_scopes ["a"; "a!x=1"] = {[ "a" := ALL ]}.
Proof.
  split; [|split; vm_compute; reflexivity].
  intros scope_list scope_name Hbare Hin.
  destruct (bare_name_split _ Hbare) as [Hb Hf].
  pose proof (foldl_parse_scope_unfiltered scope_list ∅ scope_name Hin Hf) as H.
  by rewrite Hb in H.
Qed.

Lemma parse_scopes_unrestricted_wins_witness :
  occurs "!" "users" = false
  ∧ "users" ∈ ["users!user=alice"; "users"; "users!group=staff"]
  ∧ parse_scopes ["users!user=alice"; "users"; "users!group=staff"] !! "users"
    = Some ALL.
Proof.
  split; [reflexivity|]. split; [apply list_elem_of_further, list_elem_of_here|].
  apply (proj1 parse_scopes_unrestricted_wins);
    [reflexivity | apply list_elem_of_further, list_elem_of_here].
Defined.

(** C10: a scope name followed by a lone ['!'] is parsed as [ALL], and the
    parser cannot tell it from the bare scope name, whatever stands before
    and after it in the list. *)
Theorem parse_scopes_trailing_bang (scope_name : string)
    (before after : list string) :
  occurs "!" scope_name = false →
  parse_scopes [scope_name +:+ "!"] = {[ scope_name := ALL ]}
  ∧ parse_scopes (before ++ (scope_name +:+ "!") :: after) !! scope_name = Some ALL
  ∧ parse_scopes (before ++ (scope_name +:+ "!") :: after)
    = parse_scopes (before ++ scope_name :: after).
Proof.
  intros Hbare.
  destruct (trailing_bang_split _ Hbare) as [Hb Hf].
  destruct (bare_name_split _ Hbare) as [Hb' Hf'].
  assert (Hstep : ∀ m, parse_scope m (scope_name +:+ "!") = parse_scope m scope_name).
  { intros m. apply parse_scope_ext; congruence. }
  split; [|split].
  - unfold parse_scopes. simpl. rewrite Hstep.
    destruct (parse_scope_split scope_name) as [sep Hp].
    unfold parse_scope. rewrite Hp, Hf'. simpl.
    rewrite lookup_insert_eq. by rewrite Hb'.
  - assert (Hin : scope_name +:+ "!" ∈ before ++ (scope_name +:+ "!") :: after).
    { apply elem_of_app. right. apply list_elem_of_here. }
    pose proof (foldl_parse_scope_unfiltered _ ∅ _ Hin Hf) as H.
    by rewrite Hb in H.
  - unfold parse_scopes. rewrite !foldl_app. simpl. by rewrite Hstep.
Qed.

Lemma parse_scopes_trailing_bang_witness :
  occurs "!" "users" = false
  ∧ parse_scopes ["users!"] = {[ "users" := ALL ]}
  ∧ parse_scopes (["users!user=alice"] ++ "users!" :: ["groups"]) !! "users"
    = Some ALL
  ∧ parse_scopes (["users!user=alice"] ++ "users!" :: ["groups"])
    = parse_scopes (["users!user=alice"] ++ "users" :: ["groups"]).
Proof.
  split; [reflexivity|].
  apply (parse_scopes_trailing_bang "users" ["users!user=alice"] ["groups"]).
  reflexivity.
Defined.

(** ** The resolver *)

Section resolver_facts.

Variable roles_get_scopes_for : option orm.object → gset string.

Lemma get_scopes_for_plain_user (u : orm.User) :
  get_scopes_for roles_get_scopes_for (Some (orm.OUser u))
  = roles_get_scopes_for (Some (orm.OUser u)).
Proof. reflexivity. Qed.

Lemma get_scopes_for_plain_service (s : orm.Service) :
  get_scopes_for roles_get_scopes_for (Some (orm.OService s))
  = roles_get_scopes_for (Some (orm.OService s)).
Proof. reflexivity. Qed.

(** A token that names ["all"] resolves to exactly the scopes of its
    owner. *)
Lemma get_scopes_for_token_all (t : orm.APIToken) :
  "all" ∈ roles_get_scopes_for (Some (orm.OAPIToken t)) →
  get_scopes_for roles_get_scopes_for (Some (orm.OAPIToken t))
  = roles_get_scopes_for (owner t).
Proof.
  intros Hall. simpl. rewrite bool_decide_eq_true_2 by done.
  apply set_eq. intros x. rewrite elem_of_intersection, elem_of_union. tauto.
Qed.

(** What the warning of the token branch lists never survives in the
    result. *)
Lemma discarded_disjoint (t : orm.APIToken) :
  (token_branch roles_get_scopes_for t).2
  ## get_scopes_for roles_get_scopes_for (Some (orm.OAPIToken t)).
Proof.
  simpl. intros x Hx Hy. apply elem_of_difference in Hx as [_ Hx]. by apply Hx.
Qed.

End resolver_facts.

(** C3: the scopes of a token are the intersection of its own scopes with
    those of its owner, the token's scopes being first joined with the
    owner's exactly when they contain ["all"]; the result lies within the
    owner's scopes, and is empty when ["all"] is absent and the two sets are
    disjoint. *)
Theorem token_scopes_capped_by_owner
    (roles_get_scopes_for : option orm.object → gset string)
    (t : orm.APIToken) :
  let tokenGrants := roles_get_scopes_for (Some (orm.OAPIToken t)) in
  let ownerGrants := roles_get_scopes_for (owner t) in
  let resolved := get_scopes_for roles_get_scopes_for (Some (orm.OAPIToken t)) in
  ("all" ∈ tokenGrants → resolved = (tokenGrants ∪ ownerGrants) ∩ ownerGrants)
  ∧ ("all" ∉ tokenGrants → resolved = tokenGrants ∩ ownerGrants)
  ∧ resolved ⊆ ownerGrants
  ∧ ("all" ∉ tokenGrants → tokenGrants ## ownerGrants → resolved = ∅).
Proof.
  simpl. repeat split.
  - intros Hall. by rewrite bool_decide_eq_true_2.
  - intros Hall. by rewrite bool_decide_eq_false_2.
  - intros x Hx. by apply elem_of_intersection in Hx as [_ Hx].
  - intros Hall Hdisj. rewrite bool_decide_eq_false_2 by done.
    apply set_eq. intros x. rewrite elem_of_intersection.
    split; [|by intros ?%not_elem_of_empty].
    intros [Hx Hy]. destruct (Hdisj x Hx Hy).
Qed.

Lemma token_scopes_capped_by_owner_witness :
  ("all" ∉ narrow_token_scopes)
  ∧ (narrow_token_scopes ## narrow_owner_scopes)
  ∧ get_scopes_for (sample_roles narrow_token_scopes narrow_owner_scopes)
      (Some (orm.OAPIToken alice_token)) = ∅.
Proof.
  assert (H1 : "all" ∉ narrow_token_scopes).
  { intros H. apply elem_of_singleton in H. discriminate H. }
  assert (H2 : narrow_token_scopes ## narrow_owner_scopes).
  { intros x Hx Hy. apply elem_of_singleton in Hx. subst x.
    apply elem_of_union in Hy as [Hy|Hy]; apply elem_of_singleton in Hy;
      discriminate Hy. }
  split; [exact H1|]. split; [exact H2|].
  exact (proj2 (proj2 (proj2
    (token_scopes_capped_by_owner
       (sample_roles narrow_token_scopes narrow_owner_scopes) alice_token)))
    H1 H2).
Defined.

(** ** The scope check *)

Lemma dict_set_nonempty (key value : string) (d : list (string * string)) :
  dict_set key value d ≠ [].
Proof. destruct d as [|[k v] rest]; simpl; [done|]. by case_bool_decide. Qed.

Lemma composite_nil (kwargs : list (string * string)) :
  composite kwargs = [] ↔ kwargs = [].
Proof.
  unfold composite. split.
  - destruct (dict_get "user" kwargs), (dict_get "server" kwargs); try done.
    intros H. by apply dict_set_nonempty in H.
  - by intros ->.
Qed.

(** When expansion is needed the grant has a [group] entry, so the lookup
    [sub_scope['group']] succeeds. *)
Lemma _needs_scope_expansion_group (filter_ filter_value : string)
    (sub_scope : gmap string (list string)) :
  _needs_scope_expansion filter_ filter_value sub_scope = true →
  filter_ = "user" ∧ is_Some (sub_scope !! "group").
Proof.
  unfold _needs_scope_expansion.
  destruct (bool_decide (filter_ = "user")) eqn:Hu; simpl; [|done].
  destruct (bool_decide ("group" ∈ dom sub_scope)) eqn:Hg; simpl; [|done].
  intros _. apply bool_decide_eq_true in Hu, Hg.
  split; [done|]. by apply elem_of_dom.
Qed.

(** When expansion is needed the entry itself did not match. *)
Lemma _needs_scope_expansion_no_match (filter_ filter_value : string)
    (sub_scope : gmap string (list string)) :
  _needs_scope_expansion filter_ filter_value sub_scope = true →
  direct_match sub_scope filter_ filter_value = false.
Proof.
  intros H. destruct (_needs_scope_expansion_group _ _ _ H) as [-> _].
  revert H. unfold _needs_scope_expansion, direct_match.
  destruct (negb _); [done|].
  destruct (sub_scope !! "user") as [users|]; [|done].
  by destruct (bool_decide (filter_value ∈ users)).
Qed.

(** The expanded check never fails in another way than with 404. *)
Lemma _check_user_in_expanded_scope_raise (handler : Handler)
    (user_name : string) (scope_group_names : list string) (e : exn) :
  _check_user_in_expanded_scope handler user_name scope_group_names = Raise e →
  e = not_found.
Proof.
  unfold _check_user_in_expanded_scope.
  destruct (find_user handler user_name); [done|]. congruence.
Qed.

(** The loop over the filters allows or ends in 404; it has no plain deny. *)
Lemma apply_filters_outcome (api_handler : Handler)
    (sub_scope : gmap string (list string)) (items : list (string * string)) :
  apply_filters api_handler sub_scope items = Ok true
  ∨ apply_filters api_handler sub_scope items = Raise not_found.
Proof.
  induction items as [|[filter_ filter_value] rest IH]; simpl; [by right|].
  destruct (direct_match sub_scope filter_ filter_value); [by left|].
  destruct (_needs_scope_expansion filter_ filter_value sub_scope) eqn:Hexp; [|done].
  destruct (_needs_scope_expansion_group _ _ _ Hexp) as [_ [group_names Hg]].
  rewrite Hg.
  destruct (_check_user_in_expanded_scope api_handler filter_value group_names)
    as [[|]|e] eqn:Hc; [by left|done|].
  right. by rewrite (_check_user_in_expanded_scope_raise _ _ _ _ Hc).
Qed.

Lemma apply_filters_exhausted (api_handler : Handler)
    (sub_scope : gmap string (list string)) (items : list (string * string)) :
  (∀ item, item ∈ items → ¬ permits api_handler sub_scope item) →
  apply_filters api_handler sub_scope items = Raise not_found.
Proof.
  induction items as [|[filter_ filter_value] rest IH]; simpl; [done|].
  intros Hno.
  assert (Hhead := Hno (filter_, filter_value) (list_elem_of_here _ _)).
  assert (Hrest : ∀ item, item ∈ rest → ¬ permits api_handler sub_scope item).
  { intros item Hin. apply Hno. by apply list_elem_of_further. }
  unfold permits in Hhead. simpl in Hhead.
  destruct (direct_match sub_scope filter_ filter_value); [tauto|].
  destruct (_needs_scope_expansion filter_ filter_value sub_scope) eqn:Hexp;
    [|by apply IH].
  destruct (_needs_scope_expansion_group _ _ _ Hexp) as [_ [group_names Hg]].
  rewrite Hg.
  destruct (_check_user_in_expanded_scope api_handler filter_value group_names)
    as [[|]|e] eqn:Hc.
  - exfalso. apply Hhead. right. split; [done|]. by exists group_names.
  - by apply IH.
  - by rewrite (_check_user_in_expanded_scope_raise _ _ _ _ Hc).
Qed.

(** C7: a scope name that is present in the parsed scopes, in either form,
    is allowed when the context is empty. *)
Theorem empty_context_allows (api_handler : Handler)
    (parsed : gmap string ScopeGrant) (req_scope : string) :
  parsed_scopes api_handler = Some parsed →
  is_Some (parsed !! req_scope) →
  _check_scope api_handler req_scope [] = Ok true.
Proof.
  intros Hp [grant Hg]. unfold _check_scope. rewrite Hp, Hg. simpl.
  by destruct grant.
Qed.

Lemma empty_context_allows_witness :
  parsed_scopes (loaded ["users!user=alice"])
  = Some (parse_scopes ["users!user=alice"])
  ∧ is_Some (parse_scopes ["users!user=alice"] !! "users")
  ∧ _check_scope (loaded ["users!user=alice"]) "users" [] = Ok true.
Proof.
  assert (H : is_Some (parse_scopes ["users!user=alice"] !! "users")).
  { exists (Filtered {[ "user" := ["alice"] ]}). vm_compute. reflexivity. }
  split; [reflexivity|]. split; [exact H|].
  exact (empty_context_allows (loaded ["users!user=alice"]) _ "users" eq_refl H).
Defined.

(** C5: the check returns [False] exactly when the required scope is absent
    from the parsed scopes; under a filtered grant and a context that is
    not empty, it raises the 404 error when no entry of the context permits
    access. *)
Theorem check_scope_deny_iff_absent (api_handler : Handler)
    (parsed : gmap string ScopeGrant) (req_scope : string)
    (kwargs : list (string * string)) :
  parsed_scopes api_handler = Some parsed →
  (_check_scope api_handler req_scope kwargs = Ok false
   ↔ parsed !! req_scope = None)
  ∧ (∀ sub_scope,
       parsed !! req_scope = Some (Filtered sub_scope) →
       kwargs ≠ [] →
       (∀ item, item ∈ composite kwargs → ¬ permits api_handler sub_scope item) →
       _check_scope api_handler req_scope kwargs = Raise not_found).
Proof.
  intros Hp. unfold _check_scope. rewrite Hp. split.
  - destruct (parsed !! req_scope) as [[|sub_scope]|]; [done| |done].
    split; [|done]. destruct (composite kwargs) as [|item rest]; [done|].
    by destruct (apply_filters_outcome api_handler sub_scope (item :: rest))
      as [-> | ->].
  - intros sub_scope -> Hne Hno.
    destruct (composite kwargs) as [|item rest] eqn:Hc.
    + destruct Hne. by apply composite_nil.
    + by apply apply_filters_exhausted.
Qed.

Lemma check_scope_deny_iff_absent_witness :
  _check_scope (loaded ["users!user=alice"]) "groups" [("user", "bob")] = Ok false
  ∧ _check_scope (loaded ["users!user=alice"]) "users" [("user", "bob")]
    = Raise not_found.
Proof.
  pose proof (check_scope_deny_iff_absent (loaded ["users!user=alice"])
                (parse_scopes ["users!user=alice"]) "groups" [("user", "bob")]
                eq_refl) as [Habsent _].
  pose proof (check_scope_deny_iff_absent (loaded ["users!user=alice"])
                (parse_scopes ["users!user=alice"]) "users" [("user", "bob")]
                eq_refl) as [_ Hfiltered].
  split.
  - apply Habsent. vm_compute. reflexivity.
  - apply (Hfiltered {[ "user" := ["alice"] ]}).
    + vm_compute. reflexivity.
    + discriminate.
    + intros item Hin. apply list_elem_of_singleton in Hin. subst item.
      intros [H | [H _]]; vm_compute in H; discriminate H.
Defined.

(** Membership of the user in one of the listed groups, as the set
    intersection of the source computes it. *)
Lemma groups_intersect (user : orm.User) (scope_group_names : list string) :
  negb (bool_decide
          ((list_to_set scope_group_names : gset string)
             ∩ list_to_set (orm.name <$> orm.groups user) = ∅)) = true
  ↔ ∃ group, group ∈ orm.groups user ∧ orm.name group ∈ scope_group_names.
Proof.
  rewrite negb_true_iff, bool_decide_eq_false. split.
  - intros Hne. apply set_choose_L in Hne as [x Hx].
    apply elem_of_intersection in Hx as [Hs Hu].
    apply elem_of_list_to_set in Hs, Hu.
    apply list_elem_of_fmap in Hu as [group [-> Hin]]. by exists group.
  - intros [group [Hin Hname]] Hempty.
    apply (not_elem_of_empty (C := gset string) (orm.name group)).
    rewrite <- Hempty. apply elem_of_intersection.
    split; apply elem_of_list_to_set; [done|].
    apply list_elem_of_fmap. by exists group.
Qed.




(** ** The decorator *)

Lemma check_scope_absent (self : Handler) (parsed : gmap string ScopeGrant)
    (req_scope : string) (kwargs : list (string * string)) :
  parsed_scopes self = Some parsed → parsed !! req_scope = None →
  _check_scope self req_scope kwargs = Ok false.
Proof. intros Hp Hr. unfold _check_scope. by rewrite Hp, Hr. Qed.

Lemma check_scope_ALL (self : Handler) (parsed : gmap string ScopeGrant)
    (req_scope : string) (kwargs : list (string * string)) :
  parsed_scopes self = Some parsed → parsed !! req_scope = Some ALL →
  _check_scope self req_scope kwargs = Ok true.
Proof. intros Hp Hr. unfold _check_scope. by rewrite Hp, Hr. Qed.

(** Once access was found, the loop keeps it unless a later check raises. *)
Lemma any_scope_granted (self : Handler) (s_kwargs : list (string * string))
    (todo : list string) :
  (∀ scope, scope ∈ todo → ∃ b, _check_scope self scope s_kwargs = Ok b) →
  any_scope self s_kwargs true todo = Ok true.
Proof.
  induction todo as [|scope rest IH]; intros Hok; simpl; [done|].
  destruct (Hok scope (list_elem_of_here _ _)) as [b ->]. simpl.
  apply IH. intros s Hs. apply Hok. by apply list_elem_of_further.
Qed.

Lemma any_scope_some (self : Handler) (s_kwargs : list (string * string))
    (has_access : bool) (todo : list string) :
  (∀ scope, scope ∈ todo → ∃ b, _check_scope self scope s_kwargs = Ok b) →
  (∃ scope, scope ∈ todo ∧ _check_scope self scope s_kwargs = Ok true) →
  any_scope self s_kwargs has_access todo = Ok true.
Proof.
  revert has_access.
  induction todo as [|scope rest IH]; intros has_access Hok [s [Hin Hs]].
  - by apply elem_of_nil in Hin.
  - assert (Hrest : ∀ scope, scope ∈ rest →
                      ∃ b, _check_scope self scope s_kwargs = Ok b).
    { intros s' Hs'. apply Hok. by apply list_elem_of_further. }
    simpl. apply elem_of_cons in Hin as [->|Hin].
    + rewrite Hs, orb_true_r. by apply any_scope_granted.
    + destruct (Hok scope (list_elem_of_here _ _)) as [b ->].
      apply IH; [done|]. by exists s.
Qed.

(** The first check that raises ends the loop with its exception. *)
Lemma any_scope_raise (self : Handler) (s_kwargs : list (string * string))
    (has_access : bool) (before : list string) (scope : string)
    (after : list string) (e : exn) :
  (∀ earlier, earlier ∈ before →
     ∃ b, _check_scope self earlier s_kwargs = Ok b) →
  _check_scope self scope s_kwargs = Raise e →
  any_scope self s_kwargs has_access (before ++ scope :: after) = Raise e.
Proof.
  revert has_access.
  induction before as [|first before IH]; intros has_access Hok Hraise; simpl.
  - by rewrite Hraise.
  - destruct (Hok first (list_elem_of_here _ _)) as [b ->].
    apply IH; [|done]. intros s Hs. apply Hok. by apply list_elem_of_further.
Qed.

Lemma any_scope_all_absent (self : Handler) (parsed : gmap string ScopeGrant)
    (s_kwargs : list (string * string)) (has_access : bool)
    (todo : list string) :
  parsed_scopes self = Some parsed →
  (∀ scope, scope ∈ todo → parsed !! scope = None) →
  any_scope self s_kwargs has_access todo = Ok has_access.
Proof.
  intros Hp. revert has_access.
  induction todo as [|scope rest IH]; intros has_access Habs; simpl; [done|].
  rewrite (check_scope_absent self parsed scope s_kwargs Hp
             (Habs scope (list_elem_of_here _ _))).
  rewrite orb_false_r. apply IH. intros s Hs. apply Habs.
  by apply list_elem_of_further.
Qed.

(** C9: the resolver answers the empty set for [None]; with the scopes
    parsed from it every check returns [False], for every required scope and
    every context, and so does the loop of the decorator over any list of
    names: no access is found. *)
Theorem absent_principal_denied
    (roles_get_scopes_for : option orm.object → gset string)
    (lookup : string → option orm.User)
    (req : option HTTPServerRequest) (name : option string)
    (scopes : list string) (req_scope : string)
    (kwargs : list (string * string)) :
  let scopes_of_none := get_scopes_for roles_get_scopes_for None in
  let self :=
    {| raw_scopes := Some scopes_of_none;
       parsed_scopes := Some (parse_scopes (elements scopes_of_none));
       find_user := lookup; request := req; __name__ := name |} in
  scopes_of_none = ∅
  ∧ _check_scope self req_scope kwargs = Ok false
  ∧ any_scope self kwargs false scopes = Ok false.
Proof.
  simpl. rewrite elements_empty. split; [done|]. split.
  - by apply (check_scope_absent _ ∅).
  - by apply (any_scope_all_absent _ ∅).
Qed.

(** C1: when some check among the names of the decorator returns [True] and
    none of the checks raises, the wrapped method is called; when the checks
    of the first names return [False] and the next one raises, the call ends
    with that exception, whatever the later names would give; with two
    names, the first absent from the parsed scopes and the second
    unrestricted, the wrapped method is called. *)
Theorem any_of_proceeds {R : Type} (scopes : list string)
    (func : Handler → gmap string string → result R)
    (resources : list string) (self : Handler)
    (arguments : gmap string string) :
  let loaded_self := load_scopes self in
  let s_kwargs := collect resources arguments in
  ((∀ scope, scope ∈ scopes →
      ∃ b, _check_scope loaded_self scope s_kwargs = Ok b) →
   (∃ scope, scope ∈ scopes ∧ _check_scope loaded_self scope s_kwargs = Ok true) →
   _auth_func scopes func resources self arguments
   = (loaded_self, func loaded_self arguments))
  ∧ (∀ before scope after e,
       scopes = before ++ scope :: after →
       (∀ earlier, earlier ∈ before →
          _check_scope loaded_self earlier s_kwargs = Ok false) →
       _check_scope loaded_self scope s_kwargs = Raise e →
       _auth_func scopes func resources self arguments = (loaded_self, Raise e))
  ∧ (∀ s1 s2 parsed,
       scopes = [s1; s2] →
       parsed_scopes loaded_self = Some parsed →
       parsed !! s1 = None → parsed !! s2 = Some ALL →
       _auth_func scopes func resources self arguments
       = (loaded_self, func loaded_self arguments)).
Proof.
  simpl. split; [|split].
  - intros Hok Hsome. unfold _auth_func.
    by rewrite (any_scope_some _ _ false scopes Hok Hsome).
  - intros before scope after e -> Hdeny Hraise. unfold _auth_func.
    assert (Hok : ∀ earlier, earlier ∈ before →
              ∃ b, _check_scope (load_scopes self) earlier
                     (collect resources arguments) = Ok b).
    { intros earlier Hin. exists false. by apply Hdeny. }
    by rewrite (any_scope_raise _ _ false before scope after e Hok Hraise).
  - intros s1 s2 parsed -> Hp H1 H2. unfold _auth_func. simpl.
    rewrite (check_scope_absent _ parsed s1 _ Hp H1). simpl.
    by rewrite (check_scope_ALL _ parsed s2 _ Hp H2).
Qed.

Lemma any_of_proceeds_witness :
  _auth_func ["s1"; "s2"] done_ resource_names (loaded ["s2"; "s3!user=alice"])
    bob_request
  = (loaded ["s2"; "s3!user=alice"], Ok ())
  ∧ _auth_func ["s3"; "s2"] done_ resource_names (loaded ["s2"; "s3!user=alice"])
      bob_request
    = (loaded ["s2"; "s3!user=alice"], Raise not_found).
Proof.
  pose proof (any_of_proceeds ["s1"; "s2"] done_ resource_names
                (loaded ["s2"; "s3!user=alice"]) bob_request) as [Hgo _].
  pose proof (any_of_proceeds ["s3"; "s2"] done_ resource_names
                (loaded ["s2"; "s3!user=alice"]) bob_request) as [_ [Hstop _]].
  split.
  - apply Hgo.
    + intros scope Hin. apply elem_of_cons in Hin as [->|Hin];
        [|apply list_elem_of_singleton in Hin; subst scope].
      * exists false. vm_compute. reflexivity.
      * exists true. vm_compute. reflexivity.
    + exists "s2". split; [apply list_elem_of_further, list_elem_of_here|].
      vm_compute. reflexivity.
  - apply (Hstop [] "s3" ["s2"]).
    + reflexivity.
    + intros earlier Hin. by apply elem_of_nil in Hin.
    + vm_compute. reflexivity.
Defined.

(** The claim as it is written fails: the second name is unrestricted, so
    its check succeeds, and yet the wrapped method is not called, because
    the check of the first name, a filtered grant that does not cover the
    user, raises the 404 error. *)
Lemma any_of_counterexample :
  "s2" ∈ ["s1"; "s2"]
  ∧ _check_scope (load_scopes (loaded ["s1!user=alice"; "s2"])) "s2"
      (collect resource_names bob_request) = Ok true
  ∧ (_auth_func ["s1"; "s2"] done_ resource_names
       (loaded ["s1!user=alice"; "s2"]) bob_request).2
    = Raise not_found
  ∧ (_auth_func ["s1"; "s2"] done_ resource_names
       (loaded ["s1!user=alice"; "s2"]) bob_request).2
    ≠ done_ (load_scopes (loaded ["s1!user=alice"; "s2"])) bob_request.
Proof.
  split; [apply list_elem_of_further, list_elem_of_here|].
  split; [vm_compute; reflexivity|].
  assert (H : (_auth_func ["s1"; "s2"] done_ resource_names
                 (loaded ["s1!user=alice"; "s2"]) bob_request).2
              = Raise not_found) by (vm_compute; reflexivity).
  split; [exact H|]. rewrite H. discriminate.
Qed.

(** A decidable property of the iteration order holds for every order of the
    four resource names once it holds for each of their permutations. *)
Lemma all_orders (P : list string → Prop) `{!∀ l, Decision (P l)} :
  bool_decide (Forall P (permutations resource_names)) = true →
  ∀ resources, resources ≡ₚ resource_names → P resources.
Proof.
  intros Hall resources Hperm. apply bool_decide_eq_true in Hall.
  rewrite Forall_forall in Hall. apply Hall.
  apply permutations_Permutation. by symmetry.
Qed.

(** The decorator with a single name. *)
Lemma auth_func_single {R : Type} (scope : string)
    (func : Handler → gmap string string → result R)
    (resources : list string) (self : Handler)
    (arguments : gmap string string) :
  _auth_func [scope] func resources self arguments
  = match _check_scope (load_scopes self) scope (collect resources arguments) with
    | Raise e => (load_scopes self, Raise e)
    | Ok true => (load_scopes self, func (load_scopes self) arguments)
    | Ok false =>
        match end_point (load_scopes self) with
        | Raise e => (load_scopes self, Raise e)
        | Ok _ => (load_scopes self, Raise (forbidden [scope]))
        end
    end.
Proof.
  unfold _auth_func. cbn [any_scope].
  by destruct (_check_scope _ _ _) as [[|]|e].
Qed.

(** C2: with the scopes parsed from ["users:servers!server=bar"], the call
    bound with [user_name="u1"] and [server_name="bar"] is not allowed: the
    server entry of the context is rewritten to ["u1/bar"], which the grant
    does not list, and the check raises the 404 error; the same call is
    allowed when the scope string names the composite ["u1/bar"]. This holds
    in every order of iteration of the resource names. *)
Theorem bare_server_filter_misses_composite {R : Type}
    (func : Handler → gmap string string → result R)
    (resources : list string) (raw : gset string)
    (lookup : string → option orm.User)
    (req : option HTTPServerRequest) (name : option string) :
  resources ≡ₚ resource_names →
  let bare :=
    {| raw_scopes := Some raw;
       parsed_scopes := Some (parse_scopes ["users:servers!server=bar"]);
       find_user := lookup; request := req; __name__ := name |} in
  let full :=
    {| raw_scopes := Some raw;
       parsed_scopes := Some (parse_scopes ["users:servers!server=u1/bar"]);
       find_user := lookup; request := req; __name__ := name |} in
  dict_get "server" (composite (collect resources bar_request)) = Some "u1/bar"
  ∧ _check_scope bare "users:servers" (collect resources bar_request)
    = Raise not_found
  ∧ _auth_func ["users:servers"] func resources bare bar_request
    = (bare, Raise not_found)
  ∧ _check_scope full "users:servers" (collect resources bar_request) = Ok true
  ∧ _auth_func ["users:servers"] func resources full bar_request
    = (full, func full bar_request).
Proof.
  intros Hperm bare full.
  assert (Hbare : _check_scope bare "users:servers"
                    (collect resources bar_request) = Raise not_found).
  { apply (all_orders (λ l, _check_scope bare "users:servers"
                              (collect l bar_request) = Raise not_found));
      [vm_compute; reflexivity | exact Hperm]. }
  assert (Hfull : _check_scope full "users:servers"
                    (collect resources bar_request) = Ok true).
  { apply (all_orders (λ l, _check_scope full "users:servers"
                              (collect l bar_request) = Ok true));
      [vm_compute; reflexivity | exact Hperm]. }
  split; [|split; [exact Hbare|split; [|split; [exact Hfull|]]]].
  - apply (all_orders (λ l, dict_get "server"
                              (composite (collect l bar_request))
                            = Some "u1/bar"));
      [vm_compute; reflexivity | exact Hperm].
  - rewrite auth_func_single. change (load_scopes bare) with bare.
    by rewrite Hbare.
  - rewrite auth_func_single. change (load_scopes full) with full.
    by rewrite Hfull.
Qed.

Lemma bare_server_filter_misses_composite_witness :
  resource_names ≡ₚ resource_names
  ∧ _check_scope (loaded ["users:servers!server=bar"]) "users:servers"
      (collect resource_names bar_request) = Raise not_found
  ∧ _check_scope
      {| raw_scopes := Some (list_to_set ["users:servers!server=bar"]);
         parsed_scopes := Some (parse_scopes ["users:servers!server=u1/bar"]);
         find_user := only_alice;
         request := Some users_request; __name__ := None |}
      "users:servers" (collect resource_names bar_request) = Ok true.
Proof.
  split; [reflexivity|].
  pose proof (bare_server_filter_misses_composite done_ resource_names
                (list_to_set ["users:servers!server=bar"]) only_alice
                (Some users_request) None
                (reflexivity resource_names)) as [_ [Hbare [_ [Hfull _]]]].
  split; [exact Hbare | exact Hfull].
Defined.

(** The claim as it is written fails: the context the decorator builds is
    [user=u1, server=bar], the check compares ["u1/bar"] with the list
    [["bar"]] of the grant and raises; it does not return [True]. *)
Lemma bare_server_filter_counterexample :
  parse_scopes ["users:servers!server=bar"]
  = {[ "users:servers" := Filtered {[ "server" := ["bar"] ]} ]}
  ∧ collect resource_names bar_request = [("user", "u1"); ("server", "bar")]
  ∧ composite (collect resource_names bar_request)
    = [("user", "u1"); ("server", "u1/bar")]
  ∧ _check_scope (loaded ["users:servers!server=bar"]) "users:servers"
      (collect resource_names bar_request) = Raise not_found
  ∧ _check_scope (loaded ["users:servers!server=bar"]) "users:servers"
      (collect resource_names bar_request) ≠ Ok true.
Proof.
  assert (H : _check_scope (loaded ["users:servers!server=bar"]) "users:servers"
                (collect resource_names bar_request) = Raise not_found)
    by (vm_compute; reflexivity).
  repeat split; try (vm_compute; reflexivity); try exact H.
  rewrite H. discriminate.
Qed.

(** C8: the decorator does not resolve or parse anything. On a handler
    without the attribute [raw_scopes] it sets both attributes to empty
    dictionaries; on a handler that has it, it leaves both attributes as
    they are; a second decorated call on the resulting handler changes
    nothing any more. *)
Theorem scopes_default_to_empty {R : Type} (scopes scopes' : list string)
    (func func' : Handler → gmap string string → result R)
    (resources resources' : list string) (self : Handler)
    (arguments arguments' : gmap string string) :
  let after := (_auth_func scopes func resources self arguments).1 in
  (raw_scopes self = None →
   after = {| raw_scopes := Some ∅; parsed_scopes := Some ∅;
              find_user := find_user self;
              request := request self; __name__ := __name__ self |})
  ∧ (is_Some (raw_scopes self) → after = self)
  ∧ (_auth_func scopes' func' resources' after arguments').1 = after.
Proof.
  assert (Hfst : ∀ sc (f : Handler → gmap string string → result R) rs h args,
             (_auth_func sc f rs h args).1 = load_scopes h).
  { intros sc f rs h args. unfold _auth_func.
    destruct (any_scope _ _ _ _) as [[|]|e]; [done| |done].
    by destruct (end_point _). }
  simpl. rewrite !Hfst. unfold load_scopes. split; [|split].
  - by intros ->.
  - by intros [raw ->].
  - destruct (raw_scopes self) eqn:Hraw; simpl; [by rewrite Hraw | done].
Qed.

Lemma scopes_default_to_empty_witness :
  raw_scopes unloaded = None
  ∧ (_auth_func ["users"] done_ resource_names unloaded bob_request).1
    = {| raw_scopes := Some ∅; parsed_scopes := Some ∅;
         find_user := only_alice;
         request := Some users_request; __name__ := None |}
  ∧ is_Some (raw_scopes (loaded ["users"]))
  ∧ (_auth_func ["users"] done_ resource_names (loaded ["users"]) bob_request).1
    = loaded ["users"].
Proof.
  split; [reflexivity|]. split.
  - exact (proj1 (scopes_default_to_empty ["users"] [] done_ done_
                    resource_names [] unloaded bob_request ∅) eq_refl).
  - assert (H : is_Some (raw_scopes (loaded ["users"]))) by (by eexists).
    split; [exact H|].
    exact (proj1 (proj2 (scopes_default_to_empty ["users"] [] done_ done_
                           resource_names [] (loaded ["users"]) bob_request ∅)) H).
Defined.

(** The claim as it is written fails: the caller holds ["users"], and on
    the first check of the request the decorator stores empty scopes
    instead of the resolved and parsed ones; the call is then rejected. *)
Lemma resolve_and_parse_counterexample :
  get_scopes_for (sample_roles ∅ {[ "users" ]}) (Some (orm.OUser alice))
  = {[ "users" ]}
  ∧ raw_scopes
      (_auth_func ["users"] done_ resource_names unloaded bob_request).1
    ≠ Some (get_scopes_for (sample_roles ∅ {[ "users" ]})
              (Some (orm.OUser alice)))
  ∧ parsed_scopes
      (_auth_func ["users"] done_ resource_names unloaded bob_request).1
    ≠ Some (parse_scopes
              (elements (get_scopes_for (sample_roles ∅ {[ "users" ]})
                           (Some (orm.OUser alice)))))
  ∧ (_auth_func ["users"] done_ resource_names unloaded bob_request).2
    = Raise (forbidden ["users"]).
Proof.
  split; [reflexivity|]. split; [|split].
  - apply (bool_decide_unpack _). vm_compute. exact I.
  - apply (bool_decide_unpack _). vm_compute. exact I.
  - vm_compute. reflexivity.
Qed.

(** * Further properties of the module *)

(** ** The parser, continued *)

Lemma partition_at (sep : ascii) (s rest : string) :
  occurs sep s = false →
  partition sep (s +:+ String sep rest) = (s, String sep EmptyString, rest).
Proof.
  induction s as [|c s IH]; simpl.
  - intros _. by rewrite bool_decide_eq_true_2.
  - intros H. apply orb_false_iff in H as [Hc Hs].
    rewrite Hc, (IH Hs). done.
Qed.

Lemma truthy_true (s : string) : truthy s = true ↔ s ≠ EmptyString.
Proof. destruct s; simpl; split; done. Qed.

(** An unfiltered scope string overwrites the entry of its name. *)
Lemma parse_scope_bare (m : gmap string ScopeGrant) (scope : string) :
  filter_of scope = EmptyString →
  parse_scope m scope = <[base_of scope := ALL]> m.
Proof.
  intros Hf. destruct (parse_scope_split scope) as [sep Hp].
  unfold parse_scope. rewrite Hp, Hf. simpl. by rewrite lookup_insert_eq.
Qed.

(** A filtered scope string leaves an unrestricted entry alone and adds its
    value to a filtered or new one. *)
Lemma parse_scope_filtered (m : gmap string ScopeGrant) (scope : string) :
  filter_of scope ≠ EmptyString →
  parse_scope m scope
  = match m !! base_of scope with
    | Some ALL => m
    | Some (Filtered sub_scope) =>
        <[base_of scope :=
            Filtered (add_value (key_of (filter_of scope))
                        (val_of (filter_of scope)) sub_scope)]> m
    | None =>
        <[base_of scope :=
            Filtered (add_value (key_of (filter_of scope))
                        (val_of (filter_of scope)) ∅)]> m
    end.
Proof.
  intros Hf. apply truthy_true in Hf.
  destruct (parse_scope_split scope) as [sep Hp].
  unfold parse_scope, key_of, val_of, add_value. rewrite Hp, Hf. simpl.
  destruct (partition "=" (filter_of scope)) as [[key sep'] val]. simpl.
  destruct (m !! base_of scope) as [[|sub_scope]|] eqn:Hm.
  - by rewrite Hm.
  - by rewrite Hm.
  - by rewrite lookup_insert_eq, insert_insert_eq.
Qed.

(** No scope string touches the entry of another name. *)
Lemma parse_scope_other (m : gmap string ScopeGrant) (scope name : string) :
  base_of scope ≠ name → parse_scope m scope !! name = m !! name.
Proof.
  intros Hne. destruct (decide (filter_of scope = EmptyString)) as [Hf|Hf].
  - rewrite (parse_scope_bare _ _ Hf). by rewrite lookup_insert_ne.
  - rewrite (parse_scope_filtered _ _ Hf).
    destruct (m !! base_of scope) as [[|sub_scope]|]; [done| |];
      by rewrite lookup_insert_ne.
Qed.

Lemma dom_parse_scope (m : gmap string ScopeGrant) (scope : string) :
  dom (parse_scope m scope) = {[ base_of scope ]} ∪ dom m.
Proof.
  destruct (decide (filter_of scope = EmptyString)) as [Hf|Hf].
  - rewrite (parse_scope_bare _ _ Hf). apply dom_insert_L.
  - rewrite (parse_scope_filtered _ _ Hf).
    destruct (m !! base_of scope) as [[|sub_scope]|] eqn:Hm;
      [|apply dom_insert_L..].
    apply set_eq. intros x. rewrite elem_of_union, elem_of_singleton.
    split; [by right|]. intros [->|Hx]; [|done]. by apply elem_of_dom.
Qed.

Lemma dom_foldl_parse_scope (scope_list : list string)
    (m : gmap string ScopeGrant) :
  dom (foldl parse_scope m scope_list)
  = list_to_set (base_of <$> scope_list) ∪ dom m.
Proof.
  revert m. induction scope_list as [|scope rest IH]; intros m; simpl.
  - apply set_eq. intros x. rewrite elem_of_union, elem_of_empty. tauto.
  - rewrite IH, dom_parse_scope. apply set_eq. intros x.
    rewrite !elem_of_union. tauto.
Qed.

(** X2 (parser): the keys of the parsed model are exactly the scope names of
    the scope strings; a name that no scope string carries is absent. *)
Theorem parse_scopes_dom (scope_list : list string) :
  dom (parse_scopes scope_list) = list_to_set (base_of <$> scope_list)
  ∧ ∀ name, parse_scopes scope_list !! name = None
            ↔ ∀ scope, scope ∈ scope_list → base_of scope ≠ name.
Proof.
  assert (Hdom : dom (parse_scopes scope_list)
                 = list_to_set (base_of <$> scope_list)).
  { unfold parse_scopes. rewrite dom_foldl_parse_scope, dom_empty_L.
    apply set_eq. intros x. rewrite elem_of_union, elem_of_empty. tauto. }
  split; [exact Hdom|]. intros name.
  rewrite <- not_elem_of_dom, Hdom, elem_of_list_to_set, list_elem_of_fmap.
  split.
  - intros Hno scope Hin Heq. apply Hno. by exists scope.
  - intros Hno [scope [Heq Hin]]. by apply (Hno scope).
Qed.

Lemma parse_scope_ALL_inv (m : gmap string ScopeGrant) (scope name : string) :
  parse_scope m scope !! name = Some ALL →
  m !! name = Some ALL ∨ (base_of scope = name ∧ filter_of scope = EmptyString).
Proof.
  destruct (decide (base_of scope = name)) as [Heq|Hne];
    [|rewrite (parse_scope_other _ _ _ Hne); by left].
  destruct (decide (filter_of scope = EmptyString)) as [Hf|Hf]; [by right|].
  rewrite (parse_scope_filtered _ _ Hf). subst name.
  destruct (m !! base_of scope) as [[|sub_scope]|] eqn:Hm.
  - by left.
  - by rewrite lookup_insert_eq.
  - by rewrite lookup_insert_eq.
Qed.

Lemma foldl_parse_scope_ALL_inv (scope_list : list string)
    (m : gmap string ScopeGrant) (name : string) :
  foldl parse_scope m scope_list !! name = Some ALL →
  m !! name = Some ALL
  ∨ ∃ scope, scope ∈ scope_list ∧ base_of scope = name
             ∧ filter_of scope = EmptyString.
Proof.
  revert m. induction scope_list as [|scope rest IH]; intros m; simpl.
  - by left.
  - intros H. destruct (IH _ H) as [Hm | [g [Hin [Hb Hf]]]].
    + destruct (parse_scope_ALL_inv _ _ _ Hm) as [?|[Hb Hf]]; [by left|].
      right. exists scope. split; [apply list_elem_of_here|done].
    + right. exists g. split; [by apply list_elem_of_further|done].
Qed.

(** X3 (parser): a name is unrestricted in the parsed model exactly when
    some scope string of that name has an empty filter text. *)
Theorem parse_scopes_ALL_iff (scope_list : list string) (name : string) :
  parse_scopes scope_list !! name = Some ALL
  ↔ ∃ scope, scope ∈ scope_list ∧ base_of scope = name
             ∧ filter_of scope = EmptyString.
Proof.
  split.
  - intros H. destruct (foldl_parse_scope_ALL_inv _ _ _ H) as [Hm|?]; [|done].
    by rewrite lookup_empty in Hm.
  - intros [scope [Hin [<- Hf]]]. by apply foldl_parse_scope_unfiltered.
Qed.

Lemma lists_add_value (key val : string) (sub_scope : gmap string (list string))
    (k v : string) :
  lists (add_value key val sub_scope) k v
  ↔ lists sub_scope k v ∨ (k = key ∧ v = val).
Proof.
  unfold lists, add_value.
  destruct (decide (k = key)) as [->|Hne].
  - rewrite lookup_alter_eq.
    destruct (sub_scope !! key) as [old|] eqn:Hold.
    + rewrite Hold. simpl. split.
      * intros [vals [[= <-] Hin]]. apply elem_of_app in Hin as [Hin|Hin].
        -- left. by exists old.
        -- apply list_elem_of_singleton in Hin. by right.
      * intros [[vals [[= <-] Hin]] | [_ ->]]; eexists; (split; [done|]);
          apply elem_of_app; [by left|right; apply list_elem_of_here].
    + rewrite lookup_insert_eq. simpl. split.
      * intros [vals [[= <-] Hin]]. apply list_elem_of_singleton in Hin.
        by right.
      * intros [[vals [[=] _]] | [_ ->]].
        eexists. split; [done|]. apply list_elem_of_here.
  - rewrite lookup_alter_ne by done.
    assert (Hsame : match sub_scope !! key with
                    | Some _ => sub_scope
                    | None => <[key:=[]]> sub_scope
                    end !! k = sub_scope !! k).
    { destruct (sub_scope !! key); [done|]. by rewrite lookup_insert_ne. }
    rewrite Hsame. split; [by left|]. by intros [?|[? _]].
Qed.

(** The values a list of scope strings gives for [key] under [name]. *)
Lemma foldl_parse_scope_lists (scope_list : list string)
    (m : gmap string ScopeGrant) (name : string)
    (sub_scope : gmap string (list string)) :
  (∀ scope, scope ∈ scope_list → base_of scope = name →
            filter_of scope ≠ EmptyString) →
  m !! name = Some (Filtered sub_scope) →
  ∃ final,
    foldl parse_scope m scope_list !! name = Some (Filtered final)
    ∧ ∀ k v, lists final k v
             ↔ lists sub_scope k v
               ∨ ∃ scope, scope ∈ scope_list ∧ base_of scope = name
                          ∧ key_of (filter_of scope) = k
                          ∧ val_of (filter_of scope) = v.
Proof.
  revert m sub_scope.
  induction scope_list as [|scope rest IH]; intros m sub_scope Hfil Hm; simpl.
  - exists sub_scope. split; [done|]. intros k v. split; [by left|].
    intros [?|[g [Hin _]]]; [done|]. by apply elem_of_nil in Hin.
  - assert (Hrest : ∀ g, g ∈ rest → base_of g = name →
                         filter_of g ≠ EmptyString).
    { intros g Hin. apply Hfil. by apply list_elem_of_further. }
    destruct (decide (base_of scope = name)) as [Heq|Hne].
    + pose proof (Hfil scope (list_elem_of_here _ _) Heq) as Hf.
      assert (Hstep : parse_scope m scope !! name
                      = Some (Filtered (add_value (key_of (filter_of scope))
                                          (val_of (filter_of scope)) sub_scope))).
      { rewrite (parse_scope_filtered _ _ Hf), Heq, Hm, <- Heq.
        apply lookup_insert_eq. }
      destruct (IH _ _ Hrest Hstep) as [final [Hfinal Hlists]].
      exists final. split; [done|]. intros k v.
      rewrite Hlists, lists_add_value. split.
      * intros [[?|[-> ->]] | [g [Hin ?]]].
        -- by left.
        -- right. exists scope. split; [apply list_elem_of_here|done].
        -- right. exists g. split; [by apply list_elem_of_further|done].
      * intros [?|[g [Hin [Hb [Hk Hv]]]]]; [by left; left|].
        apply elem_of_cons in Hin as [->|Hin].
        -- left. by right.
        -- right. by exists g.
    + assert (Hstep : parse_scope m scope !! name = Some (Filtered sub_scope)).
      { by rewrite (parse_scope_other _ _ _ Hne). }
      destruct (IH _ _ Hrest Hstep) as [final [Hfinal Hlists]].
      exists final. split; [done|]. intros k v. rewrite Hlists. split.
      * intros [?|[g [Hin ?]]]; [by left|].
        right. exists g. split; [by apply list_elem_of_further|done].
      * intros [?|[g [Hin [Hb ?]]]]; [by left|].
        apply elem_of_cons in Hin as [->|Hin]; [done|].
        right. by exists g.
Qed.

Lemma foldl_parse_scope_fresh (scope_list : list string)
    (m : gmap string ScopeGrant) (name : string) :
  (∀ scope, scope ∈ scope_list → base_of scope = name →
            filter_of scope ≠ EmptyString) →
  (∃ scope, scope ∈ scope_list ∧ base_of scope = name) →
  m !! name = None →
  ∃ final,
    foldl parse_scope m scope_list !! name = Some (Filtered final)
    ∧ ∀ k v, lists final k v
             ↔ ∃ scope, scope ∈ scope_list ∧ base_of scope = name
                        ∧ key_of (filter_of scope) = k
                        ∧ val_of (filter_of scope) = v.
Proof.
  revert m.
  induction scope_list as [|scope rest IH]; intros m Hfil [g0 [Hin0 Hb0]] Hm.
  - by apply elem_of_nil in Hin0.
  - assert (Hrest : ∀ g, g ∈ rest → base_of g = name →
                         filter_of g ≠ EmptyString).
    { intros g Hin. apply Hfil. by apply list_elem_of_further. }
    simpl. destruct (decide (base_of scope = name)) as [Heq|Hne].
    + pose proof (Hfil scope (list_elem_of_here _ _) Heq) as Hf.
      assert (Hstep : parse_scope m scope !! name
                      = Some (Filtered (add_value (key_of (filter_of scope))
                                          (val_of (filter_of scope)) ∅))).
      { rewrite (parse_scope_filtered _ _ Hf), Heq, Hm, <- Heq.
        apply lookup_insert_eq. }
      destruct (foldl_parse_scope_lists rest _ name _ Hrest Hstep)
        as [final [Hfinal Hlists]].
      exists final. split; [done|]. intros k v.
      rewrite Hlists, lists_add_value. split.
      * intros [[[vals [Hnone _]]|[-> ->]] | [g [Hin ?]]].
        -- by rewrite lookup_empty in Hnone.
        -- exists scope. split; [apply list_elem_of_here|done].
        -- exists g. split; [by apply list_elem_of_further|done].
      * intros [g [Hin [Hb [Hk Hv]]]].
        apply elem_of_cons in Hin as [->|Hin].
        -- left. by right.
        -- right. by exists g.
    + assert (Hstep : parse_scope m scope !! name = None).
      { by rewrite (parse_scope_other _ _ _ Hne). }
      apply elem_of_cons in Hin0 as [->|Hin0]; [done|].
      destruct (IH _ Hrest (ex_intro _ g0 (conj Hin0 Hb0)) Hstep)
        as [final [Hfinal Hlists]].
      exists final. split; [done|]. intros k v. rewrite Hlists. split.
      * intros [g [Hin ?]].
        exists g. split; [by apply list_elem_of_further|done].
      * intros [g [Hin [Hb ?]]].
        apply elem_of_cons in Hin as [->|Hin]; [done|]. by exists g.
Qed.

(** X4 (parser): a name that occurs in the list with filtered scope strings
    only is parsed to a filtered grant, and that grant lists a value under a
    key exactly when some scope string of the name carries that key and that
    value. *)
Theorem parse_scopes_filtered_values (scope_list : list string) (name : string) :
  (∀ scope, scope ∈ scope_list → base_of scope = name →
            filter_of scope ≠ EmptyString) →
  (∃ scope, scope ∈ scope_list ∧ base_of scope = name) →
  ∃ sub_scope,
    parse_scopes scope_list !! name = Some (Filtered sub_scope)
    ∧ ∀ key value,
        lists sub_scope key value
        ↔ ∃ scope, scope ∈ scope_list ∧ base_of scope = name
                   ∧ key_of (filter_of scope) = key
                   ∧ val_of (filter_of scope) = value.
Proof.
  intros Hfil Hsome. by apply foldl_parse_scope_fresh.
Qed.

Lemma parse_scopes_filtered_values_witness :
  ∃ sub_scope,
    parse_scopes mixed_scope_list !! "users" = Some (Filtered sub_scope)
    ∧ ∀ key value,
        lists sub_scope key value
        ↔ ∃ scope, scope ∈ mixed_scope_list ∧ base_of scope = "users"
                   ∧ key_of (filter_of scope) = key
                   ∧ val_of (filter_of scope) = value.
Proof.
  apply parse_scopes_filtered_values.
  - intros scope Hin Hbase. unfold mixed_scope_list in Hin.
    repeat (apply elem_of_cons in Hin as [->|Hin]);
      [| vm_compute in Hbase; discriminate Hbase | | by apply elem_of_nil in Hin];
      vm_compute; discriminate.
  - exists "users!user=alice". split; [apply list_elem_of_here|].
    vm_compute. reflexivity.
Defined.

Lemma filtered_scope_split (name key value : string) :
  occurs "!" name = false → occurs "=" key = false →
  base_of (filtered_scope name key value) = name
  ∧ filter_of (filtered_scope name key value) = key +:+ "=" +:+ value
  ∧ key_of (key +:+ "=" +:+ value) = key
  ∧ val_of (key +:+ "=" +:+ value) = value
  ∧ key +:+ "=" +:+ value ≠ EmptyString.
Proof.
  intros Hname Hkey. unfold base_of, filter_of, key_of, val_of, filtered_scope.
  change (name +:+ "!" +:+ key +:+ "=" +:+ value)
    with (name +:+ String "!" (key +:+ "=" +:+ value)).
  change (key +:+ "=" +:+ value) with (key +:+ String "=" value).
  rewrite (partition_at "!" _ _ Hname), (partition_at "=" _ _ Hkey). simpl.
  repeat split. by destruct key.
Qed.

Lemma add_value_empty (key val : string) :
  add_value key val ∅ = {[ key := [val] ]}.
Proof.
  unfold add_value. rewrite lookup_empty, insert_empty.
  by rewrite alter_singleton_eq.
Qed.

Lemma add_value_singleton (key val : string) (vals : list string) :
  add_value key val {[ key := vals ]} = {[ key := vals ++ [val] ]}.
Proof.
  unfold add_value. rewrite lookup_singleton_eq.
  by rewrite alter_singleton_eq.
Qed.

Lemma foldl_parse_scope_same_key (name key : string) (acc vals : list string) :
  occurs "!" name = false → occurs "=" key = false →
  foldl parse_scope {[ name := Filtered {[ key := acc ]} ]}
    (filtered_scope name key <$> vals)
  = {[ name := Filtered {[ key := acc ++ vals ]} ]}.
Proof.
  intros Hname Hkey. revert acc.
  induction vals as [|v vals IH]; intros acc; simpl.
  - by rewrite app_nil_r.
  - destruct (filtered_scope_split name key v Hname Hkey)
      as [Hb [Hf [Hk [Hv Hne]]]].
    rewrite parse_scope_filtered by (by rewrite Hf).
    rewrite Hb, Hf, Hk, Hv, lookup_singleton_eq, add_value_singleton.
    rewrite insert_singleton_eq, IH. by rewrite <- app_assoc.
Qed.

(** X1 (parser): scope strings of one name and one filter key are parsed to
    a grant with that single key, whose list holds the values in the order
    of the scope strings, repeated values included. *)
Theorem parse_scopes_same_key (name key : string) (vals : list string) :
  occurs "!" name = false → occurs "=" key = false → vals ≠ [] →
  parse_scopes (filtered_scope name key <$> vals)
  = {[ name := Filtered {[ key := vals ]} ]}.
Proof.
  intros Hname Hkey Hvals. destruct vals as [|v vals]; [done|].
  destruct (filtered_scope_split name key v Hname Hkey)
    as [Hb [Hf [Hk [Hv Hne]]]].
  unfold parse_scopes. simpl.
  rewrite parse_scope_filtered by (by rewrite Hf).
  rewrite Hb, Hf, Hk, Hv, lookup_empty, add_value_empty, insert_empty.
  by rewrite foldl_parse_scope_same_key.
Qed.

Lemma parse_scopes_same_key_witness :
  parse_scopes ["users:servers!server=bar"; "users:servers!server=baz";
                "users:servers!server=bar"]
  = {[ "users:servers" := Filtered {[ "server" := ["bar"; "baz"; "bar"] ]} ]}.
Proof.
  apply (parse_scopes_same_key "users:servers" "server" ["bar"; "baz"; "bar"]);
    [reflexivity | reflexivity | discriminate].
Defined.

(** X5 (parser): a filter text without ['='] is taken as a key with the
    empty string as its value. *)
Theorem parse_scopes_filter_without_value (name key : string) :
  occurs "!" name = false → occurs "=" key = false → key ≠ EmptyString →
  parse_scopes [name +:+ "!" +:+ key] = {[ name := Filtered {[ key := [""] ]} ]}.
Proof.
  intros Hname Hkey Hne.
  assert (Hsplit : base_of (name +:+ "!" +:+ key) = name
                   ∧ filter_of (name +:+ "!" +:+ key) = key).
  { unfold base_of, filter_of.
    change (name +:+ "!" +:+ key) with (name +:+ String "!" key).
    by rewrite (partition_at "!" _ _ Hname). }
  destruct Hsplit as [Hb Hf].
  unfold parse_scopes. simpl.
  rewrite parse_scope_filtered by (by rewrite Hf).
  rewrite Hb, Hf, lookup_empty. unfold key_of, val_of.
  rewrite (partition_absent "=" _ Hkey). simpl.
  by rewrite add_value_empty, insert_empty.
Qed.

Lemma parse_scopes_filter_without_value_witness :
  parse_scopes ["users!user"] = {[ "users" := Filtered {[ "user" := [""] ]} ]}.
Proof.
  apply (parse_scopes_filter_without_value "users" "user");
    [reflexivity | reflexivity | discriminate].
Defined.

(** ** The resolver, continued *)

(** X6 (resolver): a token whose scopes contain ["all"] resolves to exactly
    the scopes of its owner; the name ["all"] itself survives only when the
    owner holds it. *)
Theorem token_with_all_gets_owner_scopes
    (roles_get_scopes_for : option orm.object → gset string)
    (t : orm.APIToken) :
  "all" ∈ roles_get_scopes_for (Some (orm.OAPIToken t)) →
  get_scopes_for roles_get_scopes_for (Some (orm.OAPIToken t))
  = roles_get_scopes_for (owner t)
  ∧ ("all" ∈ get_scopes_for roles_get_scopes_for (Some (orm.OAPIToken t))
     ↔ "all" ∈ roles_get_scopes_for (owner t)).
Proof.
  intros Hall.
  by rewrite (get_scopes_for_token_all roles_get_scopes_for t Hall).
Qed.

Lemma token_with_all_gets_owner_scopes_witness :
  get_scopes_for (sample_roles all_token_scopes narrow_owner_scopes)
    (Some (orm.OAPIToken alice_token))
  = narrow_owner_scopes.
Proof.
  apply (token_with_all_gets_owner_scopes
           (sample_roles all_token_scopes narrow_owner_scopes) alice_token).
  apply elem_of_singleton. reflexivity.
Defined.

(** X7 (resolver): the scopes of the token, after the join for ["all"], split
    into the resolved scopes and the discarded ones, which are those the
    owner lacks; nothing is discarded, and no warning is logged, exactly when
    the owner holds every scope of the token. *)
Theorem discarded_token_scopes_spec
    (roles_get_scopes_for : option orm.object → gset string)
    (t : orm.APIToken) :
  let token_scopes := roles_get_scopes_for (Some (orm.OAPIToken t)) in
  let owner_scopes := roles_get_scopes_for (owner t) in
  let resolved := (token_branch roles_get_scopes_for t).1 in
  let discarded := (token_branch roles_get_scopes_for t).2 in
  (∀ scope, scope ∈ discarded
            ↔ (scope ∈ token_scopes ∧ scope ∉ owner_scopes))
  ∧ resolved ## discarded
  ∧ (discarded = ∅ ↔ token_scopes ⊆ owner_scopes).
Proof.
  simpl.
  set (token_scopes := roles_get_scopes_for (Some (orm.OAPIToken t))).
  set (owner_scopes := roles_get_scopes_for (owner t)).
  set (joined := if bool_decide ("all" ∈ token_scopes)
                 then token_scopes ∪ owner_scopes else token_scopes).
  assert (Hjoined : ∀ scope, scope ∈ joined ∧ scope ∉ owner_scopes
                             ↔ scope ∈ token_scopes ∧ scope ∉ owner_scopes).
  { intros scope. subst joined. destruct (bool_decide _); [|done].
    rewrite elem_of_union. tauto. }
  assert (Hdisc : ∀ scope, scope ∈ joined ∖ (joined ∩ owner_scopes)
                           ↔ scope ∈ token_scopes ∧ scope ∉ owner_scopes).
  { intros scope. rewrite <- Hjoined, elem_of_difference, elem_of_intersection.
    tauto. }
  split; [exact Hdisc|]. split.
  - intros scope Hres Hd. apply Hdisc in Hd as [_ Hd].
    apply elem_of_intersection in Hres as [_ Hres]. by apply Hd.
  - split.
    + intros Hempty scope Hin.
      destruct (decide (scope ∈ owner_scopes)) as [|Hno]; [done|].
      exfalso. apply (not_elem_of_empty (C := gset string) scope).
      rewrite <- Hempty. by apply Hdisc.
    + intros Hsub. apply set_eq. intros scope. rewrite Hdisc. split.
      * intros [Hin Hno]. destruct Hno. by apply Hsub.
      * by intros ?%not_elem_of_empty.
Qed.

(** X8 (resolver): a token without ["all"] whose scopes its owner all holds
    keeps exactly its own scopes. *)
Theorem token_within_owner_keeps_scopes
    (roles_get_scopes_for : option orm.object → gset string)
    (t : orm.APIToken) :
  "all" ∉ roles_get_scopes_for (Some (orm.OAPIToken t)) →
  roles_get_scopes_for (Some (orm.OAPIToken t))
    ⊆ roles_get_scopes_for (owner t) →
  get_scopes_for roles_get_scopes_for (Some (orm.OAPIToken t))
  = roles_get_scopes_for (Some (orm.OAPIToken t)).
Proof.
  intros Hall Hsub. simpl. rewrite bool_decide_eq_false_2 by done.
  apply set_eq. intros scope. rewrite elem_of_intersection.
  split; [by intros [? _]|]. intros Hin. split; [done|]. by apply Hsub.
Qed.

Lemma token_within_owner_keeps_scopes_witness :
  get_scopes_for (sample_roles held_token_scopes narrow_owner_scopes)
    (Some (orm.OAPIToken alice_token))
  = held_token_scopes.
Proof.
  assert (H1 : "all" ∉ held_token_scopes).
  { intros H. apply elem_of_singleton in H. discriminate H. }
  assert (H2 : held_token_scopes ⊆ narrow_owner_scopes).
  { intros scope H. apply elem_of_singleton in H. subst scope.
    apply elem_of_union. left. apply elem_of_singleton. reflexivity. }
  exact (token_within_owner_keeps_scopes
           (sample_roles held_token_scopes narrow_owner_scopes) alice_token
           H1 H2).
Defined.

(** ** The check and the decorator, continued *)

Lemma check_scope_outcome (self : Handler) (parsed : gmap string ScopeGrant)
    (req_scope : string) (kwargs : list (string * string)) :
  parsed_scopes self = Some parsed →
  _check_scope self req_scope kwargs = Ok true
  ∨ (_check_scope self req_scope kwargs = Ok false ∧ parsed !! req_scope = None)
  ∨ _check_scope self req_scope kwargs = Raise not_found.
Proof.
  intros Hp. unfold _check_scope. rewrite Hp.
  destruct (parsed !! req_scope) as [[|sub_scope]|]; [by left| |by right; left].
  destruct (composite kwargs) as [|item rest]; [by left|].
  destruct (apply_filters_outcome self sub_scope (item :: rest)) as [-> | ->];
    [by left|by right; right].
Qed.

Lemma any_scope_outcome (self : Handler) (parsed : gmap string ScopeGrant)
    (s_kwargs : list (string * string)) (has_access : bool)
    (todo : list string) :
  parsed_scopes self = Some parsed →
  (∃ b, any_scope self s_kwargs has_access todo = Ok b)
  ∨ any_scope self s_kwargs has_access todo = Raise not_found.
Proof.
  intros Hp. revert has_access.
  induction todo as [|scope rest IH]; intros has_access; simpl; [by left; eexists|].
  destruct (check_scope_outcome self parsed scope s_kwargs Hp)
    as [-> | [[-> _] | ->]]; [apply IH | apply IH | by right].
Qed.

Lemma any_scope_false_inv (self : Handler) (parsed : gmap string ScopeGrant)
    (s_kwargs : list (string * string)) (has_access : bool)
    (todo : list string) :
  parsed_scopes self = Some parsed →
  any_scope self s_kwargs has_access todo = Ok false →
  has_access = false ∧ ∀ scope, scope ∈ todo → parsed !! scope = None.
Proof.
  intros Hp. revert has_access.
  induction todo as [|scope rest IH]; intros has_access; simpl.
  - intros [= ->]. split; [done|]. intros s Hs. by apply elem_of_nil in Hs.
  - destruct (check_scope_outcome self parsed scope s_kwargs Hp)
      as [-> | [[-> Habs] | ->]]; [| |done].
    + intros H. apply IH in H as [H _]. by rewrite orb_true_r in H.
    + intros H. apply IH in H as [H Hrest]. rewrite orb_false_r in H.
      split; [done|]. intros s Hs.
      apply elem_of_cons in Hs as [->|Hs]; [done|]. by apply Hrest.
Qed.

Lemma end_point_load_scopes (self : Handler) :
  end_point (load_scopes self) = end_point self.
Proof. unfold load_scopes. by destruct (raw_scopes self). Qed.

Lemma end_point_outcome (self : Handler) :
  (∃ name, end_point self = Ok name)
  ∨ (end_point self = Raise (AttributeError "__name__")
     ∧ request self = None ∧ __name__ self = None).
Proof.
  unfold end_point. destruct (request self) as [req|]; [left; by eexists|].
  destruct (__name__ self) as [name|]; [left; by eexists|]. by right.
Qed.

(** X9 (decorator): on a handler that has its parsed scopes, no check fails
    on a missing key or attribute, and a decorated call ends in one of four
    ways only: with what the wrapped method returns or raises, with the 404
    error of a check, with the 403 error, or, when the call is rejected on
    a handler that has neither a request nor a name, with the attribute
    error of the unguarded [self.__name__]. *)
Theorem auth_func_outcomes {R : Type} (scopes : list string)
    (func : Handler → gmap string string → result R)
    (resources : list string) (self : Handler)
    (arguments : gmap string string) :
  is_Some (parsed_scopes (load_scopes self)) →
  (∀ scope kwargs,
     _check_scope (load_scopes self) scope kwargs = Ok true
     ∨ _check_scope (load_scopes self) scope kwargs = Ok false
     ∨ _check_scope (load_scopes self) scope kwargs = Raise not_found)
  ∧ ((_auth_func scopes func resources self arguments).2
     = func (load_scopes self) arguments
     ∨ (_auth_func scopes func resources self arguments).2 = Raise not_found
     ∨ ((_auth_func scopes func resources self arguments).2
        = Raise (forbidden scopes)
        ∧ ∃ name, end_point self = Ok name)
     ∨ ((_auth_func scopes func resources self arguments).2
        = Raise (AttributeError "__name__")
        ∧ request self = None ∧ __name__ self = None)).
Proof.
  intros [parsed Hp]. split.
  - intros scope kwargs.
    destruct (check_scope_outcome _ parsed scope kwargs Hp)
      as [?|[[? _]|?]]; auto.
  - unfold _auth_func. rewrite end_point_load_scopes.
    destruct (any_scope_outcome (load_scopes self) parsed
                (collect resources arguments) false scopes Hp)
      as [[[|] ->] | ->]; simpl; [by left| |by right; left].
    destruct (end_point_outcome self) as [[name Hname] | [Hraise [Hreq Hnm]]].
    + rewrite Hname. right. right. left. split; [done|]. by exists name.
    + rewrite Hraise. by right; right; right.
Qed.

Lemma auth_func_outcomes_witness :
  (_auth_func ["users"; "groups"] done_ resource_names
     (loaded mixed_scope_list) bob_request).2 = Raise not_found.
Proof.
  assert (H : is_Some (parsed_scopes (load_scopes (loaded mixed_scope_list))))
    by (by eexists).
  destruct (proj2 (auth_func_outcomes ["users"; "groups"] done_ resource_names
                     (loaded mixed_scope_list) bob_request H))
    as [Hcalled | [Hnot_found | [[Hforbidden _] | [Hattr _]]]].
  - vm_compute in Hcalled. discriminate Hcalled.
  - exact Hnot_found.
  - vm_compute in Hforbidden. discriminate Hforbidden.
  - vm_compute in Hattr. discriminate Hattr.
Defined.

(** X10 (decorator): on a handler that has its parsed scopes and a request
    or a name, the call is rejected with the 403 error, whatever the wrapped
    method is, exactly when none of the names of the decorator is a key of
    the parsed scopes. *)
Theorem forbidden_iff_no_scope_held {R : Type} (scopes : list string)
    (resources : list string) (self : Handler)
    (parsed : gmap string ScopeGrant) (name : string)
    (arguments : gmap string string) :
  parsed_scopes (load_scopes self) = Some parsed →
  end_point self = Ok name →
  (∀ func : Handler → gmap string string → result R,
     (_auth_func scopes func resources self arguments).2
     = Raise (forbidden scopes))
  ↔ ∀ scope, scope ∈ scopes → parsed !! scope = None.
Proof.
  intros Hp Hname. split.
  - intros Hall. specialize (Hall failing). unfold _auth_func in Hall.
    destruct (any_scope (load_scopes self) (collect resources arguments)
                false scopes) as [[|]|e] eqn:Hany; simpl in Hall.
    + discriminate Hall.
    + by destruct (any_scope_false_inv _ parsed _ _ _ Hp Hany).
    + destruct (any_scope_outcome (load_scopes self) parsed
                  (collect resources arguments) false scopes Hp)
        as [[b Hb] | Hnf]; [congruence|].
      rewrite Hany in Hnf. injection Hnf as ->. discriminate Hall.
  - intros Habs func. unfold _auth_func.
    rewrite (any_scope_all_absent _ parsed _ _ _ Hp Habs).
    by rewrite end_point_load_scopes, Hname.
Qed.

Lemma forbidden_iff_no_scope_held_witness :
  (_auth_func ["admin:users"; "read:users"] done_ resource_names
     (loaded mixed_scope_list) bob_request).2
  = Raise (forbidden ["admin:users"; "read:users"]).
Proof.
  apply (proj2 (forbidden_iff_no_scope_held (R := unit)
                  ["admin:users"; "read:users"] resource_names
                  (loaded mixed_scope_list) (parse_scopes mixed_scope_list)
                  "/hub/api/users" bob_request eq_refl eq_refl)).
  intros scope Hin.
  repeat (apply elem_of_cons in Hin as [->|Hin]);
    [vm_compute; reflexivity.. | by apply elem_of_nil in Hin].
Defined.

(** X11 (decorator): a handler without the attribute [raw_scopes] is never
    let through, also when it already had parsed scopes, which are replaced
    by the empty dictionary: for every list of names and every call the
    wrapped method is not called, and the call ends with the 403 error when
    the handler has a request or a name, and with the attribute error of
    [self.__name__] when it has neither. *)
Theorem unloaded_handler_forbidden {R : Type} (scopes : list string)
    (func : Handler → gmap string string → result R)
    (resources : list string) (self : Handler)
    (arguments : gmap string string) :
  raw_scopes self = None →
  (∀ name, end_point self = Ok name →
     _auth_func scopes func resources self arguments
     = ({| raw_scopes := Some ∅; parsed_scopes := Some ∅;
           find_user := find_user self;
           request := request self; __name__ := __name__ self |},
        Raise (forbidden scopes)))
  ∧ (request self = None → __name__ self = None →
     _auth_func scopes func resources self arguments
     = ({| raw_scopes := Some ∅; parsed_scopes := Some ∅;
           find_user := find_user self;
           request := request self; __name__ := __name__ self |},
        Raise (AttributeError "__name__"))).
Proof.
  intros Hraw.
  assert (Hend : ∀ outcome, end_point self = outcome →
            _auth_func scopes func resources self arguments
            = ({| raw_scopes := Some ∅; parsed_scopes := Some ∅;
                  find_user := find_user self;
                  request := request self; __name__ := __name__ self |},
               match outcome with
               | Ok _ => Raise (forbidden scopes)
               | Raise e => Raise e
               end)).
  { intros outcome <-. unfold _auth_func.
    rewrite end_point_load_scopes. unfold load_scopes. rewrite Hraw.
    rewrite (any_scope_all_absent _ ∅) by done.
    by destruct (end_point self). }
  split.
  - intros name Hname. by rewrite (Hend _ Hname).
  - intros Hreq Hnm. apply (Hend (Raise (AttributeError "__name__"))).
    unfold end_point. by rewrite Hreq, Hnm.
Qed.

Lemma unloaded_handler_forbidden_witness :
  _auth_func ["users"] done_ resource_names parsed_only bob_request
  = ({| raw_scopes := Some ∅; parsed_scopes := Some ∅;
        find_user := only_alice;
        request := Some users_request; __name__ := None |},
     Raise (forbidden ["users"]))
  ∧ _auth_func ["users"] done_ resource_names bare_handler bob_request
    = ({| raw_scopes := Some ∅; parsed_scopes := Some ∅;
          find_user := only_alice; request := None; __name__ := None |},
       Raise (AttributeError "__name__")).
Proof.
  split.
  - exact (proj1 (unloaded_handler_forbidden ["users"] done_ resource_names
                    parsed_only bob_request eq_refl)
             "/hub/api/users" eq_refl).
  - exact (proj2 (unloaded_handler_forbidden ["users"] done_ resource_names
                    bare_handler bob_request eq_refl)
             eq_refl eq_refl).
Defined.

(** X12 (decorator): on a handler that has [raw_scopes] but not
    [parsed_scopes], a decorated call with at least one name fails with the
    attribute error of the first check, and the wrapped method is not
    called. *)
Theorem half_loaded_handler_fails {R : Type} (scope : string)
    (scopes : list string) (func : Handler → gmap string string → result R)
    (resources : list string) (self : Handler)
    (arguments : gmap string string) :
  is_Some (raw_scopes self) → parsed_scopes self = None →
  _auth_func (scope :: scopes) func resources self arguments
  = (self, Raise (AttributeError "parsed_scopes")).
Proof.
  intros [raw Hraw] Hp. unfold _auth_func, load_scopes. rewrite Hraw. simpl.
  unfold _check_scope. by rewrite Hp.
Qed.

Lemma half_loaded_handler_fails_witness :
  _auth_func ["users"; "groups"] done_ resource_names half_loaded bob_request
  = (half_loaded, Raise (AttributeError "parsed_scopes")).
Proof.
  apply (half_loaded_handler_fails "users" ["groups"] done_ resource_names
           half_loaded bob_request); [by eexists | reflexivity].
Defined.

(** ** The order of the context *)

Lemma apply_filters_allows_iff_no_group (api_handler : Handler)
    (sub_scope : gmap string (list string)) (items : list (string * string)) :
  sub_scope !! "group" = None →
  apply_filters api_handler sub_scope items = Ok true
  ↔ ∃ item, item ∈ items ∧ direct_match sub_scope item.1 item.2 = true.
Proof.
  intros Hg.
  assert (Hno : ∀ k v, _needs_scope_expansion k v sub_scope = false).
  { intros k v. unfold _needs_scope_expansion.
    rewrite (bool_decide_eq_false_2 ("group" ∈ dom sub_scope)).
    - by rewrite andb_false_r.
    - by apply not_elem_of_dom. }
  induction items as [|[k v] rest IH]; simpl.
  - split; [done|]. intros [item [Hin _]]. by apply elem_of_nil in Hin.
  - destruct (direct_match sub_scope k v) eqn:Hd.
    + split; [|done]. intros _. exists (k, v).
      split; [apply list_elem_of_here|done].
    + rewrite Hno, IH. split.
      * intros [item [Hin Hm]]. exists item.
        split; [by apply list_elem_of_further|done].
      * intros [item [Hin Hm]]. apply elem_of_cons in Hin as [->|Hin].
        -- simpl in Hm. congruence.
        -- by exists item.
Qed.

(** X13 (check): under a grant without a [group] filter the loop over the
    context allows exactly when some entry matches directly; its outcome is
    then the same for every order of the entries and for every user
    store. *)
Theorem apply_filters_order_irrelevant_without_group
    (api_handler other_handler : Handler)
    (sub_scope : gmap string (list string))
    (items items' : list (string * string)) :
  sub_scope !! "group" = None →
  items ≡ₚ items' →
  (apply_filters api_handler sub_scope items = Ok true
   ↔ ∃ item, item ∈ items ∧ direct_match sub_scope item.1 item.2 = true)
  ∧ apply_filters api_handler sub_scope items
    = apply_filters other_handler sub_scope items'.
Proof.
  intros Hg Hperm.
  pose proof (apply_filters_allows_iff_no_group api_handler _ items Hg) as H1.
  pose proof (apply_filters_allows_iff_no_group other_handler _ items' Hg) as H2.
  split; [exact H1|].
  assert (Hsame : (∃ item, item ∈ items
                           ∧ direct_match sub_scope item.1 item.2 = true)
                  ↔ ∃ item, item ∈ items'
                            ∧ direct_match sub_scope item.1 item.2 = true).
  { split; intros [item [Hin Hm]]; exists item; (split; [|done]).
    - by rewrite <- Hperm.
    - by rewrite Hperm. }
  destruct (apply_filters_outcome api_handler sub_scope items) as [Ha|Ha],
      (apply_filters_outcome other_handler sub_scope items') as [Hb|Hb];
    rewrite Ha, Hb; try done.
  - apply H1, Hsame, H2 in Ha. congruence.
  - apply H2, Hsame, H1 in Hb. congruence.
Qed.

Lemma apply_filters_order_irrelevant_without_group_witness :
  apply_filters (loaded []) {[ "server" := ["u1/bar"] ]}
    [("user", "u1"); ("server", "u1/bar")]
  = apply_filters unloaded {[ "server" := ["u1/bar"] ]}
      [("server", "u1/bar"); ("user", "u1")].
Proof.
  apply (apply_filters_order_irrelevant_without_group (loaded []) unloaded
           {[ "server" := ["u1/bar"] ]}
           [("user", "u1"); ("server", "u1/bar")]
           [("server", "u1/bar"); ("user", "u1")]).
  - vm_compute. reflexivity.
  - apply perm_swap.
Defined.

(** X14 (decorator): under a grant with a [group] filter the outcome depends
    on the order in which the resource names are iterated: for a call that
    names an unknown user and a listed group, the call fails with the 404
    error when [user] comes first and the wrapped method is called when
    [group] comes first. *)
Theorem auth_func_depends_on_order {R : Type} (scope : string)
    (func : Handler → gmap string string → result R) (self : Handler)
    (parsed : gmap string ScopeGrant) (user_name group_name : string) :
  is_Some (raw_scopes self) →
  parsed_scopes self = Some parsed →
  parsed !! scope = Some (Filtered {[ "group" := [group_name] ]}) →
  find_user self user_name = None →
  user_first ≡ₚ group_first
  ∧ _auth_func [scope] func user_first self
      (user_group_request user_name group_name)
    = (self, Raise not_found)
  ∧ _auth_func [scope] func group_first self
      (user_group_request user_name group_name)
    = (self, func self (user_group_request user_name group_name)).
Proof.
  intros [raw Hraw] Hp Hscope Hunknown.
  assert (Hload : load_scopes self = self).
  { unfold load_scopes. by rewrite Hraw. }
  assert (Hu : collect user_first (user_group_request user_name group_name)
               = [("user", user_name); ("group", group_name)])
    by (vm_compute; reflexivity).
  assert (Hg : collect group_first (user_group_request user_name group_name)
               = [("group", group_name); ("user", user_name)])
    by (vm_compute; reflexivity).
  assert (Hdg : direct_match {[ "group" := [group_name] ]} "group" group_name
                = true).
  { unfold direct_match. rewrite lookup_singleton_eq.
    apply bool_decide_eq_true_2, list_elem_of_here. }
  assert (Hdu : direct_match {[ "group" := [group_name] ]} "user" user_name
                = false).
  { unfold direct_match. by rewrite lookup_singleton_ne. }
  assert (Hexp : _needs_scope_expansion "user" user_name
                   {[ "group" := [group_name] ]} = true)
    by (vm_compute; reflexivity).
  split.
  { symmetry.
    exact (Permutation_middle ["user"; "server"] ["service"] "group"). }
  rewrite !auth_func_single, Hload, Hu, Hg. unfold _check_scope.
  rewrite Hp, Hscope.
  change (composite [("user", user_name); ("group", group_name)])
    with [("user", user_name); ("group", group_name)].
  change (composite [("group", group_name); ("user", user_name)])
    with [("group", group_name); ("user", user_name)].
  cbn [apply_filters]. rewrite Hdg, Hdu, Hexp, lookup_singleton_eq.
  unfold _check_user_in_expanded_scope. by rewrite Hunknown.
Qed.

Lemma auth_func_depends_on_order_witness :
  _auth_func ["users"] done_ user_first (loaded ["users!group=teamA"])
    (user_group_request "bob" "teamA")
  = (loaded ["users!group=teamA"], Raise not_found)
  ∧ _auth_func ["users"] done_ group_first (loaded ["users!group=teamA"])
      (user_group_request "bob" "teamA")
    = (loaded ["users!group=teamA"], Ok ()).
Proof.
  apply (auth_func_depends_on_order "users" done_ (loaded ["users!group=teamA"])
           (parse_scopes ["users!group=teamA"]) "bob" "teamA").
  - by eexists.
  - reflexivity.
  - vm_compute. reflexivity.
  - vm_compute. reflexivity.
Defined.

(** ** Keyword dictionaries *)

Lemma dict_get_set (key value : string) (d : list (string * string))
    (k : string) :
  dict_get k (dict_set key value d)
  = if bool_decide (key = k) then Some value else dict_get k d.
Proof.
  induction d as [|[k' v'] rest IH]; simpl; [done|].
  destruct (decide (k' = key)) as [->|Hne].
  - rewrite (bool_decide_eq_true_2 (key = key)) by done. simpl.
    by destruct (bool_decide (key = k)).
  - rewrite (bool_decide_eq_false_2 (k' = key)) by done. simpl. rewrite IH.
    destruct (decide (k' = k)) as [->|Hne'].
    + rewrite (bool_decide_eq_true_2 (k = k)) by done.
      by rewrite (bool_decide_eq_false_2 (key = k)) by done.
    + by rewrite (bool_decide_eq_false_2 (k' = k)) by done.
Qed.

Lemma dict_get_in (key value : string) (d : list (string * string)) :
  dict_get key d = Some value → (key, value) ∈ d.
Proof.
  induction d as [|[k v] rest IH]; simpl; [done|].
  case_bool_decide as Hk.
  - intros [= ->]. subst k. apply list_elem_of_here.
  - intros H. apply list_elem_of_further. by apply IH.
Qed.

Lemma dict_get_None (key : string) (d : list (string * string)) :
  dict_get key d = None ↔ key ∉ d.*1.
Proof.
  induction d as [|[k v] rest IH]; simpl.
  - split; [|done]. intros _ H. by apply elem_of_nil in H.
  - rewrite not_elem_of_cons, <- IH. case_bool_decide as Hk; split.
    + done.
    + intros [Hne _]. by destruct Hne.
    + done.
    + by intros [_ ?].
Qed.

Lemma in_dict_get (key value : string) (d : list (string * string)) :
  NoDup d.*1 → (key, value) ∈ d → dict_get key d = Some value.
Proof.
  induction d as [|[k v] rest IH]; simpl; intros Hnd Hin.
  - by apply elem_of_nil in Hin.
  - apply NoDup_cons in Hnd as [Hfresh Hnd].
    apply elem_of_cons in Hin as [[= -> ->]|Hin].
    + by rewrite bool_decide_eq_true_2.
    + rewrite bool_decide_eq_false_2; [by apply IH|].
      intros ->. apply Hfresh. apply list_elem_of_fmap. by exists (key, value).
Qed.

Lemma dict_set_keys (key value : string) (d : list (string * string)) :
  (dict_set key value d).*1
  = if bool_decide (key ∈ d.*1) then d.*1 else d.*1 ++ [key].
Proof.
  induction d as [|[k v] rest IH]; [done|]. cbn [dict_set fmap list_fmap fst].
  destruct (decide (k = key)) as [->|Hne].
  - rewrite (bool_decide_eq_true_2 (key = key)) by done.
    cbn [fmap list_fmap fst].
    rewrite bool_decide_eq_true_2; [done|]. apply list_elem_of_here.
  - rewrite (bool_decide_eq_false_2 (k = key)) by done.
    cbn [fmap list_fmap fst]. rewrite IH.
    destruct (decide (key ∈ rest.*1)) as [Hin|Hnin].
    + rewrite (bool_decide_eq_true_2 (key ∈ rest.*1)) by done.
      rewrite (bool_decide_eq_true_2 (key ∈ k :: rest.*1)); [done|].
      by apply list_elem_of_further.
    + rewrite (bool_decide_eq_false_2 (key ∈ rest.*1)) by done.
      rewrite (bool_decide_eq_false_2 (key ∈ k :: rest.*1)); [done|].
      rewrite not_elem_of_cons. split; [congruence|done].
Qed.

Lemma dict_set_NoDup (key value : string) (d : list (string * string)) :
  NoDup d.*1 → NoDup (dict_set key value d).*1.
Proof.
  intros Hnd. rewrite dict_set_keys. case_bool_decide as Hin; [done|].
  apply NoDup_app. split; [done|]. split; [|apply NoDup_singleton].
  intros k Hk Hk'. apply list_elem_of_singleton in Hk'. by subst k.
Qed.

Lemma dict_set_other_in (key value : string) (d : list (string * string))
    (item : string * string) :
  item ∈ d → item.1 ≠ key → item ∈ dict_set key value d.
Proof.
  induction d as [|[k v] rest IH]; simpl; intros Hin Hne.
  - by apply elem_of_nil in Hin.
  - apply elem_of_cons in Hin as [->|Hin].
    + simpl in Hne. rewrite bool_decide_eq_false_2 by done.
      apply list_elem_of_here.
    + case_bool_decide; apply list_elem_of_further; [done|by apply IH].
Qed.

(** X19 (check): the rewriting at the start of the check keeps the keys of
    the context and their order, changes no entry but [server], and gives
    [server] the value [user/server] exactly when both entries are
    present. *)
Theorem composite_spec (kwargs : list (string * string)) :
  (composite kwargs).*1 = kwargs.*1
  ∧ (∀ key, key ≠ "server" →
            dict_get key (composite kwargs) = dict_get key kwargs)
  ∧ dict_get "server" (composite kwargs)
    = match dict_get "user" kwargs, dict_get "server" kwargs with
      | Some user, Some server => Some (user +:+ "/" +:+ server)
      | _, other => other
      end.
Proof.
  unfold composite.
  destruct (dict_get "user" kwargs) as [user|] eqn:Hu; [|done].
  destruct (dict_get "server" kwargs) as [server|] eqn:Hs; [|by rewrite Hs].
  split; [|split].
  - rewrite dict_set_keys, bool_decide_eq_true_2; [done|].
    apply dec_stable. intros Hno. apply dict_get_None in Hno. congruence.
  - intros key Hne. rewrite dict_get_set.
    by rewrite bool_decide_eq_false_2 by done.
  - rewrite dict_get_set. by rewrite bool_decide_eq_true_2.
Qed.

Lemma collect_from (arguments : gmap string string) (resources : list string)
    (acc : list (string * string)) :
  NoDup acc.*1 →
  NoDup (foldl (λ s_kwargs resource,
                  match arguments !! (resource +:+ "_name") with
                  | Some resource_value =>
                      dict_set resource resource_value s_kwargs
                  | None => s_kwargs
                  end) acc resources).*1
  ∧ ∀ key,
      dict_get key
        (foldl (λ s_kwargs resource,
                  match arguments !! (resource +:+ "_name") with
                  | Some resource_value =>
                      dict_set resource resource_value s_kwargs
                  | None => s_kwargs
                  end) acc resources)
      = match (if bool_decide (key ∈ resources)
               then arguments !! (key +:+ "_name") else None) with
        | Some value => Some value
        | None => dict_get key acc
        end.
Proof.
  revert acc. induction resources as [|r rest IH]; intros acc Hnd; cbn [foldl].
  - split; [done|]. intros key.
    rewrite (bool_decide_eq_false_2 (key ∈ [])); [done|].
    intros H. by apply elem_of_nil in H.
  - set (next := match arguments !! (r +:+ "_name") with
                 | Some resource_value => dict_set r resource_value acc
                 | None => acc
                 end).
    assert (Hnext : NoDup next.*1).
    { subst next. destruct (arguments !! (r +:+ "_name")); [|done].
      by apply dict_set_NoDup. }
    destruct (IH next Hnext) as [Hnd' Hget]. split; [done|].
    intros key. rewrite Hget.
    assert (Hstep : dict_get key next
                    = match (if bool_decide (r = key)
                             then arguments !! (key +:+ "_name") else None) with
                      | Some value => Some value
                      | None => dict_get key acc
                      end).
    { subst next. destruct (decide (r = key)) as [->|Hne].
      - rewrite (bool_decide_eq_true_2 (key = key)) by done.
        destruct (arguments !! (key +:+ "_name")); [|done].
        rewrite dict_get_set. by rewrite bool_decide_eq_true_2.
      - rewrite (bool_decide_eq_false_2 (r = key)) by done.
        destruct (arguments !! (r +:+ "_name")); [|done].
        rewrite dict_get_set. by rewrite bool_decide_eq_false_2. }
    rewrite Hstep.
    destruct (decide (key ∈ rest)) as [Hin|Hnin].
    + rewrite (bool_decide_eq_true_2 (key ∈ rest)) by done.
      rewrite (bool_decide_eq_true_2 (key ∈ r :: rest))
        by (by apply list_elem_of_further).
      destruct (arguments !! (key +:+ "_name")); [done|].
      by destruct (bool_decide (r = key)).
    + rewrite (bool_decide_eq_false_2 (key ∈ rest)) by done.
      destruct (decide (r = key)) as [->|Hne].
      * rewrite (bool_decide_eq_true_2 (key = key)) by done.
        by rewrite (bool_decide_eq_true_2 (key ∈ key :: rest))
          by apply list_elem_of_here.
      * rewrite (bool_decide_eq_false_2 (r = key)) by done.
        rewrite (bool_decide_eq_false_2 (key ∈ r :: rest)); [done|].
        rewrite not_elem_of_cons. split; [congruence|done].
Qed.

(** X16 (decorator): the context the decorator builds has each key once, and
    holds [resource = value] exactly when [resource] is one of the iterated
    names and the call binds the parameter [resource_name] to [value]. *)
Theorem collect_spec (resources : list string)
    (arguments : gmap string string) :
  NoDup (collect resources arguments).*1
  ∧ ∀ resource value,
      (resource, value) ∈ collect resources arguments
      ↔ resource ∈ resources
        ∧ arguments !! (resource +:+ "_name") = Some value.
Proof.
  destruct (collect_from arguments resources [] (NoDup_nil_2 (A := string))) as [Hnd Hget].
  split; [exact Hnd|]. intros resource value.
  assert (Hiff : (resource, value) ∈ collect resources arguments
                 ↔ dict_get resource (collect resources arguments) = Some value).
  { split; [by apply in_dict_get | apply dict_get_in]. }
  rewrite Hiff. unfold collect. rewrite Hget. cbn [dict_get].
  case_bool_decide as Hin.
  - destruct (arguments !! (resource +:+ "_name")) as [bound|]; split.
    + intros Heq. by injection Heq as ->.
    + intros [_ Heq]. by injection Heq as ->.
    + intros Heq. discriminate Heq.
    + intros [_ Heq]. discriminate Heq.
  - split.
    + intros Heq. discriminate Heq.
    + intros [Hyes _]. by destruct Hin.
Qed.

(** ** Grants and requests *)

Lemma apply_filters_user_listed (api_handler : Handler)
    (sub_scope : gmap string (list string)) (items : list (string * string))
    (user_name : string) :
  NoDup items.*1 → ("user", user_name) ∈ items →
  direct_match sub_scope "user" user_name = true →
  apply_filters api_handler sub_scope items = Ok true.
Proof.
  intros Hnd Hin Hmatch.
  induction items as [|[k v] rest IH]; [by apply elem_of_nil in Hin|].
  cbn [apply_filters]. cbn [fmap list_fmap fst] in Hnd.
  apply NoDup_cons in Hnd as [Hfresh Hnd].
  apply elem_of_cons in Hin as [[= <- <-]|Hin]; [by rewrite Hmatch|].
  destruct (direct_match sub_scope k v); [done|].
  assert (Hk : k ≠ "user").
  { intros ->. apply Hfresh. apply list_elem_of_fmap.
    by exists ("user", user_name). }
  assert (Hno : _needs_scope_expansion k v sub_scope = false).
  { unfold _needs_scope_expansion.
    by rewrite (bool_decide_eq_false_2 (k = "user")) by done. }
  rewrite Hno. by apply IH.
Qed.

(** X15 (check): a grant whose [user] filter lists the user of the request
    allows it, whatever else the request names (a server, a group), in every
    order of the context and without consulting the user store. *)
Theorem user_filter_covers_request (api_handler : Handler)
    (parsed : gmap string ScopeGrant) (req_scope : string)
    (sub_scope : gmap string (list string)) (users : list string)
    (user_name : string) (kwargs : list (string * string)) :
  parsed_scopes api_handler = Some parsed →
  parsed !! req_scope = Some (Filtered sub_scope) →
  sub_scope !! "user" = Some users → user_name ∈ users →
  NoDup kwargs.*1 → ("user", user_name) ∈ kwargs →
  _check_scope api_handler req_scope kwargs = Ok true.
Proof.
  intros Hp Hscope Husers Hlisted Hnd Hin.
  assert (Hmatch : direct_match sub_scope "user" user_name = true).
  { unfold direct_match. rewrite Husers. by apply bool_decide_eq_true_2. }
  assert (Hin' : ("user", user_name) ∈ composite kwargs).
  { unfold composite.
    destruct (dict_get "user" kwargs), (dict_get "server" kwargs); try done.
    by apply dict_set_other_in. }
  assert (Hnd' : NoDup (composite kwargs).*1).
  { unfold composite.
    destruct (dict_get "user" kwargs), (dict_get "server" kwargs); try done.
    by apply dict_set_NoDup. }
  unfold _check_scope. rewrite Hp, Hscope.
  destruct (composite kwargs) as [|item rest] eqn:Hc; [done|].
  by apply (apply_filters_user_listed _ _ _ user_name).
Qed.

Lemma user_filter_covers_request_witness :
  _check_scope (loaded ["users:servers!user=bob"; "users:servers!group=teamA"])
    "users:servers" [("server", "lab"); ("user", "bob")] = Ok true.
Proof.
  apply (user_filter_covers_request _
           (parse_scopes ["users:servers!user=bob"; "users:servers!group=teamA"])
           "users:servers" {[ "user" := ["bob"]; "group" := ["teamA"] ]}
           ["bob"] "bob").
  - reflexivity.
  - vm_compute. reflexivity.
  - vm_compute. reflexivity.
  - apply list_elem_of_here.
  - apply NoDup_cons. split.
    + intros H. apply list_elem_of_singleton in H. discriminate H.
    + apply NoDup_singleton.
  - apply list_elem_of_further, list_elem_of_here.
Defined.

(** X17 (parser and check): when the scope list of the caller contains a
    scope name as it is, every check of that name allows, whatever the
    context and the other scope strings, and a method decorated with that
    name is called. *)
Theorem unfiltered_scope_always_allowed {R : Type} (scope_list : list string)
    (scope_name : string) (func : Handler → gmap string string → result R)
    (resources : list string) (raw : gset string)
    (lookup : string → option orm.User)
    (req : option HTTPServerRequest) (name : option string)
    (kwargs : list (string * string)) (arguments : gmap string string) :
  occurs "!" scope_name = false → scope_name ∈ scope_list →
  let self :=
    {| raw_scopes := Some raw; parsed_scopes := Some (parse_scopes scope_list);
       find_user := lookup; request := req; __name__ := name |} in
  _check_scope self scope_name kwargs = Ok true
  ∧ _auth_func [scope_name] func resources self arguments
    = (self, func self arguments).
Proof.
  intros Hbare Hin self.
  destruct (bare_name_split _ Hbare) as [Hb Hf].
  pose proof (foldl_parse_scope_unfiltered scope_list ∅ scope_name Hin Hf) as H.
  rewrite Hb in H.
  assert (Hcheck : ∀ kw, _check_scope self scope_name kw = Ok true).
  { intros kw. by apply (check_scope_ALL self (parse_scopes scope_list)). }
  split; [apply Hcheck|].
  rewrite auth_func_single. change (load_scopes self) with self.
  by rewrite Hcheck.
Qed.

Lemma unfiltered_scope_always_allowed_witness :
  _check_scope (loaded mixed_scope_list) "groups" [("group", "teamB")] = Ok true
  ∧ _auth_func ["groups"] done_ resource_names (loaded mixed_scope_list)
      bob_request
    = (loaded mixed_scope_list, Ok ()).
Proof.
  apply (unfiltered_scope_always_allowed mixed_scope_list "groups" done_
           resource_names (list_to_set mixed_scope_list) only_alice
           (Some users_request) None [("group", "teamB")] bob_request).
  - reflexivity.
  - apply list_elem_of_further, list_elem_of_here.
Defined.

(** X18 (check): under a grant with a [group] filter and no [user] filter, a
    request that names a user only is allowed exactly when the user store
    knows the user and the user is in one of the listed groups; otherwise
    the check raises the 404 error. *)
Theorem group_grant_user_request (api_handler : Handler)
    (parsed : gmap string ScopeGrant) (req_scope : string)
    (sub_scope : gmap string (list string)) (group_names : list string)
    (user_name : string) :
  parsed_scopes api_handler = Some parsed →
  parsed !! req_scope = Some (Filtered sub_scope) →
  sub_scope !! "group" = Some group_names → sub_scope !! "user" = None →
  (_check_scope api_handler req_scope [("user", user_name)] = Ok true
   ↔ ∃ user group, find_user api_handler user_name = Some user
                   ∧ group ∈ orm.groups user
                   ∧ orm.name group ∈ group_names)
  ∧ (_check_scope api_handler req_scope [("user", user_name)] = Ok true
     ∨ _check_scope api_handler req_scope [("user", user_name)]
       = Raise not_found).
Proof.
  intros Hp Hscope Hgroup Huser.
  assert (Hexp : _needs_scope_expansion "user" user_name sub_scope = true).
  { unfold _needs_scope_expansion.
    rewrite (bool_decide_eq_true_2 ("user" = "user")) by done.
    rewrite (bool_decide_eq_true_2 ("group" ∈ dom sub_scope))
      by (by apply elem_of_dom).
    by rewrite Huser. }
  assert (Hcheck : _check_scope api_handler req_scope [("user", user_name)]
                   = match _check_user_in_expanded_scope api_handler user_name
                             group_names with
                     | Ok false => Raise not_found
                     | decided => decided
                     end).
  { unfold _check_scope. rewrite Hp, Hscope.
    change (composite [("user", user_name)]) with [("user", user_name)].
    cbn [apply_filters].
    rewrite (_needs_scope_expansion_no_match _ _ _ Hexp), Hexp, Hgroup.
    by destruct (_check_user_in_expanded_scope _ _ _) as [[|]|e]. }
  rewrite Hcheck. unfold _check_user_in_expanded_scope.
  destruct (find_user api_handler user_name) as [user|] eqn:Hfound.
  - pose proof (groups_intersect user group_names) as Hmember.
    destruct (negb _) eqn:Hb.
    + split; [|by left]. split; [|done]. intros _.
      destruct (proj1 Hmember eq_refl) as [group [Hin Hname]].
      by exists user, group.
    + split; [|by right]. split; [done|].
      intros [user' [group [[= <-] [Hin Hname]]]].
      assert (Htrue : false = true); [|done].
      apply Hmember. by exists group.
  - split; [|by right]. split; [done|]. by intros [user [group [[=] _]]].
Qed.

Lemma group_grant_user_request_witness :
  _check_scope (loaded ["users!group=teamA"]) "users" [("user", "alice")]
  = Ok true.
Proof.
  assert (H1 : parse_scopes ["users!group=teamA"] !! "users"
               = Some (Filtered {[ "group" := ["teamA"] ]}))
    by (vm_compute; reflexivity).
  assert (H2 : ({[ "group" := ["teamA"] ]} : gmap string (list string))
                 !! "group" = Some ["teamA"])
    by (vm_compute; reflexivity).
  assert (H3 : ({[ "group" := ["teamA"] ]} : gmap string (list string))
                 !! "user" = None)
    by (vm_compute; reflexivity).
  apply (proj1 (group_grant_user_request (loaded ["users!group=teamA"])
                  (parse_scopes ["users!group=teamA"]) "users"
                  {[ "group" := ["teamA"] ]} ["teamA"] "alice"
                  eq_refl H1 H2 H3)).
  exists alice, {| orm.name := "teamA" |}.
  split; [reflexivity|]. split; apply list_elem_of_here.
Defined.
